(** * yolo-evm: the disassembler of [src/disasm.py]

    A shallow embedding of [disassemble] and [DataSection.render], and the
    properties of the code/data segmentation pass.

    The pass reads the buffer through [smol_evm.opcodes.decode_opcode], a
    library that is not part of this repository.  Its opcode numbering is
    the EVM's; the table of mnemonics is a parameter of the development. *)

From Stdlib Require Import List Arith NArith ZArith Lia Bool Ascii String DecimalString DecimalNat.
From Stdlib.Strings Require Import Byte.
Import ListNotations.

Local Open Scope string_scope.
Local Open Scope nat_scope.
Local Open Scope list_scope.

(** ** Python's text formatting *)

Module Fmt.

(** One lowercase hexadecimal digit. *)
Definition hex_digit (d : N) : ascii :=
  match d with
  | 0 => "0" | 1 => "1" | 2 => "2" | 3 => "3"
  | 4 => "4" | 5 => "5" | 6 => "6" | 7 => "7"
  | 8 => "8" | 9 => "9" | 10 => "a" | 11 => "b"
  | 12 => "c" | 13 => "d" | 14 => "e" | _ => "f"
  end%N%char.

(** The digits of [n], most significant first; [fuel] bounds their
    number. *)
Fixpoint hex_of (fuel : nat) (n : N) : string :=
  match fuel with
  | O => ""
  | S f =>
      if (n <? 16)%N then String (hex_digit n) ""
      else (hex_of f (n / 16) ++ String (hex_digit (n mod 16)) "")%string
  end.

(** [format(n, "x")]: the hexadecimal digits of [n], no leading zero,
    ["0"] for zero.  A number has no more digits than bits. *)
Definition hex (n : N) : string := hex_of (S (N.to_nat (N.log2 n))) n.

Fixpoint zeros (k : nat) : string :=
  match k with
  | O => ""
  | S k' => String "0" (zeros k')
  end.

(** [format(n, "0<width>x")], as in [f"{n:04x}"]: the digits of [n] padded
    on the left with zeros up to [width] characters, never cut. *)
Definition format_x (width : nat) (n : N) : string :=
  let s := hex n in
  (zeros (width - String.length s) ++ s)%string.

(** [bytes.hex()]: two digits for each byte. *)
Definition byte_hex (b : byte) : string :=
  String (hex_digit (Byte.to_N b / 16))
    (String (hex_digit (Byte.to_N b mod 16)) "").

Fixpoint bytes_hex (bs : list byte) : string :=
  match bs with
  | [] => ""
  | b :: bs' => (byte_hex b ++ bytes_hex bs')%string
  end.

(** [int.from_bytes(data, byteorder="big")]. *)
Definition int_from_bytes (bs : list byte) : N :=
  fold_left (fun acc b => (acc * 256 + Byte.to_N b)%N) bs 0%N.

(** [str(n)] for a natural number. *)
Definition dec (n : nat) : string := NilEmpty.string_of_uint (Nat.to_uint n).

(** Reading a hexadecimal numeral back: the value of a digit and of a
    string of digits. *)
Definition is_hex_lower (c : ascii) : bool :=
  let n := nat_of_ascii c in
  ((48 <=? n) && (n <=? 57)) || ((97 <=? n) && (n <=? 102)).

Definition hex_digit_value (c : ascii) : N :=
  let n := N_of_ascii c in
  (if n <? 58 then n - 48 else n - 87)%N.

Fixpoint hex_value_from (acc : N) (s : string) : N :=
  match s with
  | EmptyString => acc
  | String c s' => hex_value_from (16 * acc + hex_digit_value c)%N s'
  end.

Definition hex_value (s : string) : N := hex_value_from 0 s.

Fixpoint all_chars (p : ascii -> bool) (s : string) : bool :=
  match s with
  | EmptyString => true
  | String c s' => p c && all_chars p s'
  end.

(** The numeral of [n] on exactly [k] digits, and the bound it needs. *)
Fixpoint digits (k : nat) (n : N) : string :=
  match k with
  | O => ""
  | S k' => (digits k' (n / 16) ++ String (hex_digit (n mod 16)) "")%string
  end.

Fixpoint pow16 (k : nat) : N :=
  match k with
  | O => 1
  | S k' => 16 * pow16 k'
  end%N.

(** A line that starts with four lowercase hexadecimal digits, a colon and
    a space. *)
Definition offset_prefix4 (line : string) : bool :=
  match line with
  | String a (String b (String c (String d (String e (String f _))))) =>
      is_hex_lower a && is_hex_lower b && is_hex_lower c && is_hex_lower d
      && Ascii.eqb e ":" && Ascii.eqb f " "
  | _ => false
  end.

End Fmt.

(** ** Byte buffers *)

(** The slice [code[a:b]]. *)
Definition slice (code : list byte) (a b : nat) : list byte :=
  firstn (b - a) (skipn a code).

(** ** The opcodes the pass names

    Modelled from the spec: [JUMP.opcode], [STOP.opcode], ... are constants
    of [smol_evm.opcodes], which is not under src/.  The spec's examples
    read 00 as STOP, 5b as JUMPDEST and 60 as PUSH1, and give the pushes
    the widths 1 to 32: the EVM's numbering. *)

Definition STOP : byte := x00.
Definition JUMP : byte := x56.
Definition JUMPDEST : byte := x5b.
Definition PUSH1 : byte := x60.
Definition PUSH32 : byte := x7f.
Definition RETURN : byte := xf3.
Definition REVERT : byte := xfd.
Definition INVALID : byte := xfe.

(** [TERMINATING = set((JUMP.opcode, STOP.opcode, REVERT.opcode,
    RETURN.opcode, INVALID.opcode))] *)
Definition TERMINATING : list byte := [JUMP; STOP; REVERT; RETURN; INVALID].

Definition in_TERMINATING (op : byte) : bool :=
  existsb (Byte.eqb op) TERMINATING.

(** ** The decoder and the pass *)

(** Modelled from the spec: the [Instruction] of [smol_evm.opcodes], with
    what the pass reads of it: the raw opcode byte, the mnemonic, and the
    operand bytes the decoder read (fewer than the width when the buffer
    ends). *)
Record Instruction : Type := {
  opcode : byte;
  name : string;
  operand : list byte
}.

(** Modelled from the spec: [insn.is_push()] and [insn.push_width()] of
    [smol_evm.opcodes]; PUSH1 .. PUSH32 declare operands of 1 .. 32 bytes.
    The pass calls [push_width] on pushes only. *)
Definition is_push (insn : Instruction) : bool :=
  (Byte.to_nat PUSH1 <=? Byte.to_nat (opcode insn)) &&
  (Byte.to_nat (opcode insn) <=? Byte.to_nat PUSH32).

Definition push_width (insn : Instruction) : nat :=
  Byte.to_nat (opcode insn) - Byte.to_nat PUSH1 + 1.

(** Modelled from the spec: [str(insn)], the mnemonic alone, or the
    mnemonic and the operand in hexadecimal for a push. *)
Definition Instruction_str (insn : Instruction) : string :=
  if is_push insn
  then (name insn ++ " 0x" ++ Fmt.bytes_hex (operand insn))%string
  else name insn.

Record DataSection : Type := {
  start_pc : nat;
  data : list byte
}.

(** A line of the listing, with what it was formatted from. *)
Inductive Line : Type :=
| InsnLine (pc : nat) (insn : Instruction)
| TruncatedLine (pc : nat) (width : nat) (push_data : list byte)
| DataLine (d : DataSection).

(** [DataSection.render]: the text it appends. *)
Definition DataSection_render (d : DataSection) : string :=
  (Fmt.format_x 4 (N.of_nat (start_pc d)) ++ ": DATA 0x"
     ++ Fmt.format_x (List.length (data d) * 2) (Fmt.int_from_bytes (data d)))%string.

Definition render_line (l : Line) : string :=
  match l with
  | InsnLine pc insn =>
      (Fmt.format_x 4 (N.of_nat pc) ++ ": " ++ Instruction_str insn)%string
  | TruncatedLine pc width push_data =>
      (Fmt.format_x 4 (N.of_nat pc) ++ ": PUSH" ++ Fmt.dec width ++ " 0x"
         ++ Fmt.bytes_hex push_data ++ " # truncated")%string
  | DataLine d => DataSection_render d
  end.

(** The local variables of [disassemble] between two iterations. *)
Record State : Type := {
  pc : nat;
  reading_code : bool;
  data_section : option DataSection;
  output : list Line
}.

Definition initial : State :=
  {| pc := 0; reading_code := true; data_section := None; output := [] |}.

(** ** The text given to [main] *)

(** [strip_0x(s)]: [s[2:] if s and s.startswith("0x") else s]. *)
Definition strip_0x (s : string) : string :=
  if negb (String.eqb s "") && String.prefix "0x" s
  then substring 2 (String.length s - 2) s
  else s.

(** The ASCII whitespace [bytes.fromhex] steps over: space, and tab to
    carriage return. *)
Definition is_space (c : ascii) : bool :=
  let n := nat_of_ascii c in
  (n =? 32) || ((9 <=? n) && (n <=? 13)).

(** The value of a hexadecimal digit of either case. *)
Definition fromhex_digit (c : ascii) : option N :=
  let n := N_of_ascii c in
  if (48 <=? n)%N && (n <=? 57)%N then Some (n - 48)%N
  else if (97 <=? n)%N && (n <=? 102)%N then Some (n - 87)%N
  else if (65 <=? n)%N && (n <=? 70)%N then Some (n - 55)%N
  else None.

(** [bytes.fromhex(s)]: whitespace is stepped over before each byte, a
    byte is two digits side by side; [None] stands for the ValueError
    raised on any other character or on a missing second digit. *)
Fixpoint fromhex (s : string) : option (list byte) :=
  match s with
  | EmptyString => Some []
  | String c s1 =>
      if is_space c then fromhex s1
      else
        match fromhex_digit c, s1 with
        | Some top, String c2 s2 =>
            match fromhex_digit c2 with
            | Some bot =>
                match Byte.of_N (16 * top + bot), fromhex s2 with
                | Some b, Some bs => Some (b :: bs)
                | _, _ => None
                end
            | None => None
            end
        | _, _ => None
        end
  end.

(** [bytes.fromhex(strip_0x(text))], the buffer [main] disassembles. *)
Definition parse_code (text : string) : option (list byte) :=
  fromhex (strip_0x text).

Definition newline : string := String (ascii_of_nat 10) "".

(** ** Lines as bytes, lines moved *)

(** The opcode of the push of [width] bytes. *)
Definition push_opcode (width : nat) : byte :=
  match Byte.of_nat (Byte.to_nat PUSH1 + width - 1) with
  | Some b => b
  | None => STOP
  end.

(** The bytes of the buffer a line was formatted from. *)
Definition line_bytes (l : Line) : list byte :=
  match l with
  | InsnLine _ insn => opcode insn :: operand insn
  | TruncatedLine _ width push_data => push_opcode width :: push_data
  | DataLine d => data d
  end.

(** The line [l] with its offset moved [n] bytes further. *)
Definition shift_line (n : nat) (l : Line) : Line :=
  match l with
  | InsnLine pc insn => InsnLine (n + pc) insn
  | TruncatedLine pc width push_data => TruncatedLine (n + pc) width push_data
  | DataLine d => DataLine {| start_pc := n + start_pc d; data := data d |}
  end.

(** The state [st] of a pass moved [n] bytes further, after the lines
    [before]. *)
Definition shift_state (n : nat) (before : list Line) (st : State) : State :=
  {| pc := n + pc st;
     reading_code := reading_code st;
     data_section :=
       option_map (fun d => {| start_pc := n + start_pc d; data := data d |})
         (data_section st);
     output := before ++ map (shift_line n) (output st) |}.

(** A listing that leaves the pass in code mode with nothing cut short:
    it is empty, or its last line is an instruction that does not
    terminate. *)
Definition ends_in_code (ls : list Line) : Prop :=
  ls = [] \/
  exists l0 pc insn,
    ls = l0 ++ [InsnLine pc insn] /\ in_TERMINATING (opcode insn) = false.

(** The text [s] has no character [sep]. *)
Definition without (sep : ascii) (s : string) : bool :=
  Fmt.all_chars (fun c => negb (Ascii.eqb c sep)) s.

(** The end of a truncated line, or nothing. *)
Definition trunc_tail (truncated : bool) : string :=
  if truncated then " # truncated" else "".

(** ** Sample data

    A table of mnemonics and buffers to run the pass on. *)

Definition sample_mnemonic (op : byte) : string :=
  if (Byte.to_nat PUSH1 <=? Byte.to_nat op) && (Byte.to_nat op <=? Byte.to_nat PUSH32)
  then ("PUSH" ++ Fmt.dec (Byte.to_nat op - Byte.to_nat PUSH1 + 1))%string
  else
    match op with
    | x00 => "STOP"
    | x01 => "ADD"
    | x56 => "JUMP"
    | x5b => "JUMPDEST"
    | xf3 => "RETURN"
    | xfd => "REVERT"
    | xfe => "INVALID"
    | _ => "UNKNOWN"
    end.

(** A table that gives each opcode its own name: OP and the two digits of
    the byte. *)
Definition numbered_mnemonic (op : byte) : string :=
  ("OP" ++ Fmt.byte_hex op)%string.

(** PUSH1 0x01, STOP, then the data 60 5b aa, a JUMPDEST and a STOP. *)
Definition sample_code : list byte := [x60; x01; x00; x60; x5b; xaa; x5b; x00].

(** PUSH1 0x01, then a PUSH2 with one byte of operand. *)
Definition sample_truncated : list byte := [x60; x01; x61; xaa].

(** STOP, then the data 00 de ad. *)
Definition sample_data : list byte := [x00; x00; xde; xad].

(** 65537 ADD instructions, and 65536 of them before a lone PUSH1. *)
Definition long_plain_code : list byte := repeat x01 (N.to_nat 65537).

Definition long_truncated_code : list byte := repeat x01 (N.to_nat 65536) ++ [x60].

Section Disassembler.

(** The mnemonic the opcode table gives a byte. *)
Variable mnemonic : byte -> string.

(** Modelled from the spec: [decode_opcode] of [smol_evm.opcodes] reads
    the opcode byte at the cursor and up to [push_width] operand bytes,
    stopping at the end of the buffer, and leaves the cursor after them. *)
Definition decode_opcode (code : list byte) (pc : nat) : Instruction * nat :=
  let op := nth pc code STOP in
  let head := {| opcode := op; name := mnemonic op; operand := [] |} in
  let width := if is_push head then push_width head else 0 in
  ({| opcode := op; name := mnemonic op;
      operand := slice code (pc + 1) (pc + 1 + width) |},
   Nat.min (pc + 1 + width) (List.length code)).

(** One iteration of the [while] loop.  The opcodes are bytes, on which
    Python's [is] agrees with equality. *)
Definition loop_body (code : list byte) (st : State) : State :=
  let original_pc := pc st in
  let '(insn, next_pc) := decode_opcode code original_pc in
  let push_data :=
    if is_push insn
    then slice code (original_pc + 1) (original_pc + 1 + push_width insn)
    else [] in
  if reading_code st || Byte.eqb (opcode insn) JUMPDEST then
    let flushed :=
      match data_section st with
      | Some d => output st ++ [DataLine d]
      | None => output st
      end in
    let line :=
      if is_push insn && (List.length push_data <? push_width insn)
      then TruncatedLine original_pc (push_width insn) push_data
      else InsnLine original_pc insn in
    {| pc := next_pc;
       reading_code := negb (in_TERMINATING (opcode insn));
       data_section := None;
       output := flushed ++ [line] |}
  else
    let d :=
      match data_section st with
      | Some d => d
      | None => {| start_pc := original_pc; data := [] |}
      end in
    {| pc := next_pc;
       reading_code := false;
       data_section :=
         Some {| start_pc := start_pc d;
                 data := data d ++ [opcode insn] ++ push_data |};
       output := output st |}.

(** [while context.pc < len(code)], with a bound on the iterations. *)
Fixpoint loop (fuel : nat) (code : list byte) (st : State) : option State :=
  if pc st <? List.length code then
    match fuel with
    | O => None
    | S fuel' => loop fuel' code (loop_body code st)
    end
  else Some st.

(** The flush after the loop. *)
Definition finish (st : State) : list Line :=
  match data_section st with
  | Some d => output st ++ [DataLine d]
  | None => output st
  end.

Definition disassemble_lines (code : list byte) : option (list Line) :=
  option_map finish (loop (List.length code) code initial).

Definition disassemble (code : list byte) : option (list string) :=
  option_map (map render_line) (disassemble_lines code).

(** The instruction decoded at [p] and where the cursor is left. *)
Definition insn_at (code : list byte) (p : nat) : Instruction :=
  fst (decode_opcode code p).

Definition next_pc (code : list byte) (p : nat) : nat :=
  snd (decode_opcode code p).

(** The operand bytes the pass takes for the instruction at [p]. *)
Definition push_data_at (code : list byte) (p : nat) : list byte :=
  if is_push (insn_at code p)
  then slice code (p + 1) (p + 1 + push_width (insn_at code p))
  else [].

(** The loop started from [st], with the iterations it can need. *)
Definition run (code : list byte) (st : State) : option State :=
  loop (List.length code - pc st) code st.

(** The states the loop goes through, each taken at the loop's test. *)
Inductive reachable (code : list byte) : State -> Prop :=
| reachable_initial : reachable code initial
| reachable_step st :
    reachable code st -> pc st < List.length code ->
    reachable code (loop_body code st).

(** ** What the lines describe *)

Definition line_offset (l : Line) : nat :=
  match l with
  | InsnLine pc _ => pc
  | TruncatedLine pc _ _ => pc
  | DataLine d => start_pc d
  end.

(** The number of bytes of the buffer a line stands for. *)
Definition line_size (l : Line) : nat :=
  match l with
  | InsnLine _ insn => 1 + List.length (operand insn)
  | TruncatedLine _ _ push_data => 1 + List.length push_data
  | DataLine d => List.length (data d)
  end.

(** [l] shows what the buffer holds at [line_offset l]. *)
Definition describes (code : list byte) (l : Line) : Prop :=
  match l with
  | InsnLine pc insn =>
      pc < List.length code /\ insn = insn_at code pc /\
      pc + 1 + List.length (operand insn) <= List.length code /\
      (is_push insn = true -> List.length (operand insn) = push_width insn)
  | TruncatedLine pc width push_data =>
      pc < List.length code /\
      is_push (insn_at code pc) = true /\
      width = push_width (insn_at code pc) /\
      push_data = skipn (pc + 1) code /\
      List.length code < pc + 1 + width
  | DataLine d =>
      data d <> [] /\
      data d = slice code (start_pc d) (start_pc d + List.length (data d))
  end.

(** The lines [ls] describe the buffer from [p] to [q], one after the
    other and without a gap. *)
Inductive tiles (code : list byte) : nat -> list Line -> nat -> Prop :=
| tiles_nil p : tiles code p [] p
| tiles_cons p l ls q :
    line_offset l = p -> describes code l ->
    tiles code (p + line_size l) ls q ->
    tiles code p (l :: ls) q.

(** ** The caller *)

(** [main]: what the file system answers for the path in [--code].  The
    path does not exist; or it exists and [open] and [f.read()] give its
    text; or it exists and one of them raises (a directory, a file that
    cannot be read or decoded). *)
Inductive CodeFile : Type :=
| NoFile
| FileText (contents : string)
| FileError.

(** [main]: [arg] is the text of [--code]; the result is what [print]
    writes, [None] an uncaught exception: the error of reading an
    existing path, or the ValueError of [bytes.fromhex]. *)
Definition main (file : CodeFile) (arg : string) : option string :=
  match
    match file with
    | FileText contents => parse_code contents
    | FileError => None
    | NoFile => parse_code arg
    end
  with
  | Some code =>
      option_map (fun lines => (String.concat newline lines ++ newline)%string)
        (disassemble code)
  | None => None
  end.

(** ** Reading the lines back *)

(** A table whose listings can be read back: no two opcodes share a
    mnemonic, no mnemonic has a space, none is the word DATA. *)
Definition legible : Prop :=
  (forall a b, mnemonic a = mnemonic b -> a = b) /\
  (forall op, without " " (mnemonic op) = true) /\
  (forall op, mnemonic op <> "DATA").

(** What a line says after its offset. *)
Definition line_body (l : Line) : string :=
  match l with
  | InsnLine _ insn => Instruction_str insn
  | TruncatedLine _ width push_data =>
      ("PUSH" ++ Fmt.dec width ++ " 0x" ++ Fmt.bytes_hex push_data
         ++ " # truncated")%string
  | DataLine d =>
      ("DATA 0x" ++ Fmt.format_x (List.length (data d) * 2)
                      (Fmt.int_from_bytes (data d)))%string
  end.

(** The four kinds of text after the offset, with the bytes shown. *)
Inductive BodyForm : Type :=
| Plain (op : byte)
| Full (op : byte) (operand : list byte)
| Cut (width : nat) (push_data : list byte)
| Region (bytes : list byte).

Definition text_of (f : BodyForm) : string :=
  match f with
  | Plain op => mnemonic op
  | Full op operand =>
      (mnemonic op ++ " 0x" ++ Fmt.bytes_hex operand ++ trunc_tail false)%string
  | Cut width push_data =>
      (("PUSH" ++ Fmt.dec width) ++ " 0x" ++ Fmt.bytes_hex push_data
         ++ trunc_tail true)%string
  | Region bytes =>
      ("DATA" ++ " 0x" ++ Fmt.bytes_hex bytes ++ trunc_tail false)%string
  end.

Definition bytes_of (f : BodyForm) : list byte :=
  match f with
  | Plain op => [op]
  | Full op operand => op :: operand
  | Cut width push_data => push_opcode width :: push_data
  | Region bytes => bytes
  end.

(** ** Instruction boundaries *)

(** The offsets met when the buffer is read one instruction after the
    other from offset 0, the operands of pushes stepped over. *)
Inductive boundary (code : list byte) : nat -> Prop :=
| boundary_start : boundary code 0
| boundary_next p :
    boundary code p -> p < List.length code ->
    boundary code (next_pc code p).

(** The iteration, from what the decoder returned. *)
Definition body_of (decoded : Instruction * nat) (st : State) : State :=
  let '(insn, next) := decoded in
  let push_data := operand insn in
  if reading_code st || Byte.eqb (opcode insn) JUMPDEST then
    {| pc := next;
       reading_code := negb (in_TERMINATING (opcode insn));
       data_section := None;
       output :=
         finish st ++
         [if is_push insn && (List.length push_data <? push_width insn)
          then TruncatedLine (pc st) (push_width insn) push_data
          else InsnLine (pc st) insn] |}
  else
    {| pc := next;
       reading_code := false;
       data_section :=
         Some {| start_pc :=
                   match data_section st with
                   | Some d => start_pc d
                   | None => pc st
                   end;
                 data :=
                   match data_section st with
                   | Some d => data d
                   | None => []
                   end ++ [opcode insn] ++ push_data |};
       output := output st |}.

(** [ls] ends with the line of a terminating instruction. *)
Definition after_terminator (ls : list Line) : Prop :=
  exists l0 pc insn,
    ls = l0 ++ [InsnLine pc insn] /\ in_TERMINATING (opcode insn) = true.

(** Each data line of [ls] comes right after such a line. *)
Definition data_follows_code (ls : list Line) : Prop :=
  forall l1 d l2, ls = l1 ++ DataLine d :: l2 -> after_terminator l1.

(** Where the part of the buffer not yet in [output] begins. *)
Definition pending_from (st : State) : nat :=
  match data_section st with
  | Some d => start_pc d
  | None => pc st
  end.

(** ** The scan of a data region *)

(** From [p], the offset of the next byte decoded as JUMPDEST when the
    buffer is read one instruction after the other, or the end of the
    buffer. *)
Fixpoint next_jumpdest (fuel : nat) (code : list byte) (p : nat) : nat :=
  if p <? List.length code then
    if Byte.eqb (nth p code STOP) JUMPDEST then p
    else
      match fuel with
      | O => List.length code
      | S fuel' => next_jumpdest fuel' code (next_pc code p)
      end
  else List.length code.

Definition data_end (code : list byte) (p : nat) : nat :=
  next_jumpdest (List.length code - p) code p.



(** The state after [n] code-mode iterations over bytes that neither push
    nor terminate. *)
Definition plain (op : byte) : bool :=
  negb (is_push {| opcode := op; name := ""; operand := [] |})
  && negb (in_TERMINATING op).

Definition plain_state (code : list byte) (n : nat) : State :=
  {| pc := n;
     reading_code := true;
     data_section := None;
     output := map (fun i => InsnLine i (insn_at code i)) (seq 0 n) |}.

(** ** Strings *)

Lemma append_assoc (a b c : string) :
  ((a ++ b) ++ c)%string = (a ++ (b ++ c))%string.
Proof. induction a as [|x a IH]; simpl; [reflexivity | now rewrite IH]. Qed.

Lemma append_empty_r (a : string) : (a ++ "")%string = a.
Proof. induction a as [|x a IH]; simpl; [reflexivity | now rewrite IH]. Qed.

Lemma length_append (a b : string) :
  String.length (a ++ b) = String.length a + String.length b.
Proof. induction a as [|x a IH]; simpl; [reflexivity | now rewrite IH]. Qed.

Lemma all_chars_append p (a b : string) :
  Fmt.all_chars p (a ++ b) = Fmt.all_chars p a && Fmt.all_chars p b.
Proof.
  induction a as [|x a IH]; simpl; [reflexivity |].
  now rewrite IH, andb_assoc.
Qed.

(** ** Hexadecimal numerals *)

Lemma hex_digit_is_hex d : Fmt.is_hex_lower (Fmt.hex_digit d) = true.
Proof.
  destruct d as [|p]; [reflexivity |].
  do 4 (destruct p as [p|p|]; try reflexivity).
Qed.

Lemma hex_digit_value_digit d :
  (d < 16)%N -> Fmt.hex_digit_value (Fmt.hex_digit d) = d.
Proof.
  intros H. destruct d as [|p]; [reflexivity |].
  do 4 (destruct p as [p|p|]; try reflexivity); lia.
Qed.

Lemma zeros_length k : String.length (Fmt.zeros k) = k.
Proof. induction k; simpl; congruence. Qed.

Lemma zeros_all_hex k : Fmt.all_chars Fmt.is_hex_lower (Fmt.zeros k) = true.
Proof. induction k; simpl; auto. Qed.

Lemma zeros_snoc k : (Fmt.zeros k ++ "0")%string = Fmt.zeros (S k).
Proof. induction k; simpl; [reflexivity | now rewrite IHk]. Qed.

Lemma hex_of_all_hex f n : Fmt.all_chars Fmt.is_hex_lower (Fmt.hex_of f n) = true.
Proof.
  revert n; induction f as [|f IH]; intros n; simpl; [reflexivity |].
  destruct (n <? 16)%N; simpl.
  - now rewrite hex_digit_is_hex.
  - rewrite all_chars_append, IH. simpl. now rewrite hex_digit_is_hex.
Qed.

Lemma hex_value_from_append acc (a b : string) :
  Fmt.hex_value_from acc (a ++ b) = Fmt.hex_value_from (Fmt.hex_value_from acc a) b.
Proof. revert acc; induction a as [|x a IH]; intros acc; simpl; auto. Qed.

Lemma hex_value_zeros k : Fmt.hex_value_from 0 (Fmt.zeros k) = 0%N.
Proof. induction k; simpl; auto. Qed.

Lemma div16_bound k n : (n < Fmt.pow16 (S k))%N -> (n / 16 < Fmt.pow16 k)%N.
Proof.
  change (Fmt.pow16 (S k)) with (16 * Fmt.pow16 k)%N.
  generalize (Fmt.pow16 k). intros m H.
  zify. Z.to_euclidean_division_equations. lia.
Qed.

Lemma pow16_pos k : (0 < Fmt.pow16 k)%N.
Proof.
  induction k; [reflexivity |].
  change (Fmt.pow16 (S k)) with (16 * Fmt.pow16 k)%N. lia.
Qed.

Lemma hex_of_S f n :
  Fmt.hex_of (S f) n =
  if (n <? 16)%N then String (Fmt.hex_digit n) ""
  else (Fmt.hex_of f (n / 16) ++ String (Fmt.hex_digit (n mod 16)) "")%string.
Proof. reflexivity. Qed.

Lemma hex_of_value f n :
  (n < Fmt.pow16 (S f))%N -> Fmt.hex_value (Fmt.hex_of (S f) n) = n.
Proof.
  unfold Fmt.hex_value. revert n; induction f as [|f IH]; intros n H.
  - simpl in H. simpl. destruct (N.ltb_spec n 16); [| lia].
    simpl. rewrite hex_digit_value_digit; lia.
  - rewrite hex_of_S. destruct (N.ltb_spec n 16) as [Hs|Hs].
    + simpl. rewrite hex_digit_value_digit; lia.
    + rewrite hex_value_from_append.
      rewrite IH by now apply div16_bound.
      cbn [Fmt.hex_value_from].
      rewrite hex_digit_value_digit by (apply N.mod_lt; lia).
      zify. Z.to_euclidean_division_equations. lia.
Qed.

Lemma pow16_ge_pow2 k : (2 ^ N.of_nat k <= Fmt.pow16 k)%N.
Proof.
  induction k as [|k IH]; [simpl; lia |].
  rewrite Nat2N.inj_succ, N.pow_succ_r'.
  change (Fmt.pow16 (S k)) with (16 * Fmt.pow16 k)%N. lia.
Qed.

Lemma hex_fuel_bound n : (n < Fmt.pow16 (S (N.to_nat (N.log2 n))))%N.
Proof.
  destruct (N.eq_dec n 0) as [->|Hn]; [apply pow16_pos |].
  eapply N.lt_le_trans; [| apply pow16_ge_pow2].
  rewrite Nat2N.inj_succ, N2Nat.id.
  apply N.log2_spec. lia.
Qed.

Lemma hex_all_hex n : Fmt.all_chars Fmt.is_hex_lower (Fmt.hex n) = true.
Proof. apply hex_of_all_hex. Qed.

Lemma hex_value_hex n : Fmt.hex_value (Fmt.hex n) = n.
Proof. apply hex_of_value, hex_fuel_bound. Qed.

Lemma format_x_all_hex w n :
  Fmt.all_chars Fmt.is_hex_lower (Fmt.format_x w n) = true.
Proof.
  unfold Fmt.format_x. now rewrite all_chars_append, zeros_all_hex, hex_all_hex.
Qed.

Lemma format_x_value w n : Fmt.hex_value (Fmt.format_x w n) = n.
Proof.
  unfold Fmt.format_x, Fmt.hex_value.
  rewrite hex_value_from_append, hex_value_zeros. apply hex_value_hex.
Qed.

Lemma format_x_length_ge w n : w <= String.length (Fmt.format_x w n).
Proof.
  unfold Fmt.format_x. rewrite length_append, zeros_length. lia.
Qed.

Lemma format_x_inj w n m : Fmt.format_x w n = Fmt.format_x w m -> n = m.
Proof.
  intros H. rewrite <- (format_x_value w n), <- (format_x_value w m).
  now rewrite H.
Qed.

Lemma digits_length k n : String.length (Fmt.digits k n) = k.
Proof.
  revert n; induction k as [|k IH]; intros n; simpl; [reflexivity |].
  rewrite length_append, IH. simpl. lia.
Qed.

Lemma digits_zero k : Fmt.digits k 0 = Fmt.zeros k.
Proof.
  induction k as [|k IH]; [reflexivity |].
  cbn [Fmt.digits]. change (0 / 16)%N with 0%N. rewrite IH.
  apply zeros_snoc.
Qed.

Lemma pad_hex_of_digits k :
  forall f n,
    (n < Fmt.pow16 (S k))%N -> (n < Fmt.pow16 (S f))%N ->
    (Fmt.zeros (S k - String.length (Fmt.hex_of (S f) n)) ++ Fmt.hex_of (S f) n)%string
    = Fmt.digits (S k) n.
Proof.
  induction k as [|k IH]; intros f n Hk Hf.
  - change (Fmt.pow16 1) with 16%N in Hk.
    rewrite hex_of_S. destruct (N.ltb_spec n 16); [| lia].
    simpl. now rewrite N.mod_small.
  - rewrite hex_of_S. destruct (N.ltb_spec n 16) as [Hs|Hs].
    + cbn [String.length Nat.sub].
      change (Fmt.digits (S (S k)) n)
        with (Fmt.digits (S k) (n / 16) ++ String (Fmt.hex_digit (n mod 16)) "")%string.
      rewrite N.div_small, N.mod_small, digits_zero by assumption.
      reflexivity.
    + destruct f as [|f].
      { change (Fmt.pow16 1) with 16%N in Hf. lia. }
      rewrite length_append. cbn [String.length].
      replace (S (S k) - (String.length (Fmt.hex_of (S f) (n / 16)) + 1))
        with (S k - String.length (Fmt.hex_of (S f) (n / 16))) by lia.
      rewrite <- append_assoc.
      rewrite IH by now apply div16_bound.
      reflexivity.
Qed.

Lemma format_x_digits k n :
  (n < Fmt.pow16 (S k))%N -> Fmt.format_x (S k) n = Fmt.digits (S k) n.
Proof.
  intros H. unfold Fmt.format_x, Fmt.hex.
  apply pad_hex_of_digits; [assumption | apply hex_fuel_bound].
Qed.

Lemma format_x_length_exact k n :
  (n < Fmt.pow16 (S k))%N -> String.length (Fmt.format_x (S k) n) = S k.
Proof. intros H. rewrite format_x_digits by assumption. apply digits_length. Qed.

(** ** Bytes as one big-endian integer *)

Lemma int_from_bytes_snoc bs b :
  Fmt.int_from_bytes (bs ++ [b]) = (Fmt.int_from_bytes bs * 256 + Byte.to_N b)%N.
Proof. unfold Fmt.int_from_bytes. now rewrite fold_left_app. Qed.

Lemma pow16_SS k : Fmt.pow16 (S (S k)) = (256 * Fmt.pow16 k)%N.
Proof.
  change (Fmt.pow16 (S (S k))) with (16 * (16 * Fmt.pow16 k))%N. lia.
Qed.

Lemma byte_lt_256 b : (Byte.to_N b < 256)%N.
Proof. pose proof (Byte.to_N_bounded b). lia. Qed.

Lemma int_from_bytes_bound bs :
  (Fmt.int_from_bytes bs < Fmt.pow16 (List.length bs * 2))%N.
Proof.
  induction bs as [|b bs IH] using rev_ind; [reflexivity |].
  rewrite int_from_bytes_snoc, length_app. cbn [List.length].
  replace ((List.length bs + 1) * 2) with (S (S (List.length bs * 2))) by lia.
  rewrite pow16_SS. pose proof (byte_lt_256 b). lia.
Qed.

Lemma bytes_hex_app a b :
  Fmt.bytes_hex (a ++ b) = (Fmt.bytes_hex a ++ Fmt.bytes_hex b)%string.
Proof.
  induction a as [|x a IH]; [reflexivity |].
  cbn [app Fmt.bytes_hex]. now rewrite IH, append_assoc.
Qed.

Lemma bytes_hex_length bs : String.length (Fmt.bytes_hex bs) = 2 * List.length bs.
Proof.
  induction bs as [|b bs IH]; [reflexivity |].
  cbn [Fmt.bytes_hex List.length]. rewrite length_append, IH. simpl. lia.
Qed.

Lemma digits_int_from_bytes bs :
  Fmt.digits (List.length bs * 2) (Fmt.int_from_bytes bs) = Fmt.bytes_hex bs.
Proof.
  induction bs as [|b bs IH] using rev_ind; [reflexivity |].
  rewrite int_from_bytes_snoc, length_app, bytes_hex_app. cbn [List.length].
  replace ((List.length bs + 1) * 2) with (S (S (List.length bs * 2))) by lia.
  cbn [Fmt.digits Fmt.bytes_hex]. rewrite append_empty_r.
  pose proof (byte_lt_256 b) as Hb.
  set (m := Fmt.int_from_bytes bs) in *. set (v := Byte.to_N b) in *.
  replace ((m * 256 + v) / 16 / 16)%N with m.
  2:{ rewrite N.Div0.div_div. change (16 * 16)%N with 256%N.
      rewrite N.div_add_l by lia. rewrite N.div_small by lia. lia. }
  replace (((m * 256 + v) / 16) mod 16)%N with (v / 16)%N
    by (zify; Z.to_euclidean_division_equations; lia).
  replace ((m * 256 + v) mod 16)%N with (v mod 16)%N
    by (zify; Z.to_euclidean_division_equations; lia).
  rewrite IH, append_assoc. reflexivity.
Qed.

Lemma data_payload bs :
  bs <> [] ->
  Fmt.format_x (List.length bs * 2) (Fmt.int_from_bytes bs) = Fmt.bytes_hex bs.
Proof.
  intros Hne. rewrite <- digits_int_from_bytes.
  pose proof (int_from_bytes_bound bs) as Hb.
  destruct bs as [|b bs]; [congruence |].
  cbn [List.length] in *.
  change (S (List.length bs) * 2) with (S (S (List.length bs * 2))) in *.
  now apply format_x_digits.
Qed.

(** ** Slices of the buffer *)

Lemma firstn_plus {A} n m (l : list A) :
  firstn (n + m) l = firstn n l ++ firstn m (skipn n l).
Proof.
  revert l; induction n as [|n IH]; intros l; [reflexivity |].
  destruct l as [|x l]; simpl.
  - now rewrite firstn_nil.
  - now rewrite IH.
Qed.

Lemma skipn_nth_cons {A} p (l : list A) d :
  p < List.length l -> skipn p l = nth p l d :: skipn (S p) l.
Proof.
  revert l; induction p as [|p IH]; intros l H; destruct l as [|x l];
    simpl in *; try lia; [reflexivity |].
  apply IH. lia.
Qed.

Lemma slice_length code a b :
  List.length (slice code a b) = Nat.min (b - a) (List.length code - a).
Proof. unfold slice. now rewrite length_firstn, length_skipn. Qed.

Lemma slice_app code a b c :
  a <= b -> b <= c -> slice code a b ++ slice code b c = slice code a c.
Proof.
  intros Hab Hbc. unfold slice.
  replace (c - a) with ((b - a) + (c - b)) by lia.
  rewrite firstn_plus, skipn_skipn.
  now replace (b - a + a) with b by lia.
Qed.

Lemma slice_cons code p q :
  p < List.length code -> p < q ->
  slice code p q = nth p code STOP :: slice code (p + 1) q.
Proof.
  intros Hp Hq. unfold slice.
  rewrite (skipn_nth_cons p code STOP) by assumption.
  replace (q - p) with (S (q - (p + 1))) by lia.
  now replace (p + 1) with (S p) by lia.
Qed.

Lemma slice_to_end code a b :
  List.length code <= b -> slice code a b = skipn a code.
Proof.
  intros H. unfold slice. apply firstn_all2. rewrite length_skipn. lia.
Qed.

Lemma slice_clamp code a b :
  slice code a (Nat.min b (List.length code)) = slice code a b.
Proof.
  destruct (Nat.le_ge_cases b (List.length code)) as [H|H].
  - now rewrite Nat.min_l.
  - rewrite Nat.min_r by assumption.
    rewrite !slice_to_end; auto.
Qed.

Lemma slice_empty code a : slice code a a = [].
Proof. unfold slice. now rewrite Nat.sub_diag. Qed.

(** ** The decoder *)

Lemma insn_at_opcode code p : opcode (insn_at code p) = nth p code STOP.
Proof. reflexivity. Qed.

Lemma insn_at_operand code p : operand (insn_at code p) = push_data_at code p.
Proof.
  unfold push_data_at, insn_at, decode_opcode. cbn [fst operand].
  unfold is_push, push_width. cbn [opcode].
  destruct (_ && _); [reflexivity |].
  now rewrite Nat.add_0_r, slice_empty.
Qed.

Lemma next_pc_eq code p :
  next_pc code p = Nat.min (p + 1 + List.length (push_data_at code p)) (List.length code).
Proof.
  unfold next_pc, push_data_at, insn_at, decode_opcode. cbn [fst snd].
  unfold is_push, push_width. cbn [opcode].
  destruct (_ && _).
  - rewrite slice_length. lia.
  - cbn [List.length]. lia.
Qed.

Lemma next_pc_gt code p : p < List.length code -> p < next_pc code p.
Proof. intros H. rewrite next_pc_eq. lia. Qed.

Lemma next_pc_le code p : next_pc code p <= List.length code.
Proof. rewrite next_pc_eq. lia. Qed.

Lemma decoded_bytes code p :
  p < List.length code ->
  [opcode (insn_at code p)] ++ push_data_at code p = slice code p (next_pc code p).
Proof.
  intros H. rewrite slice_cons by (auto using next_pc_gt).
  rewrite insn_at_opcode. cbn [app]. f_equal.
  rewrite next_pc_eq, slice_clamp.
  unfold push_data_at. destruct (is_push (insn_at code p)) eqn:E.
  - rewrite slice_length.
    destruct (Nat.le_ge_cases (p + 1 + push_width (insn_at code p)) (List.length code)).
    + f_equal. lia.
    + rewrite !slice_to_end; auto; lia.
  - cbn [List.length]. now rewrite Nat.add_0_r, slice_empty.
Qed.

Lemma push_width_pos insn : 0 < push_width insn.
Proof. unfold push_width. lia. Qed.

Lemma terminating_not_push op insn :
  opcode insn = op -> in_TERMINATING op = true -> is_push insn = false.
Proof.
  intros <- H. unfold in_TERMINATING, TERMINATING in H. cbn [existsb] in H.
  rewrite !orb_true_iff in H. unfold is_push.
  destruct H as [H|[H|[H|[H|[H|H]]]]]; try discriminate;
    apply Byte.byte_dec_bl in H; rewrite H; reflexivity.
Qed.

Lemma terminating_not_jumpdest op :
  in_TERMINATING op = true -> Byte.eqb op JUMPDEST = false.
Proof.
  intros H. unfold in_TERMINATING, TERMINATING in H. cbn [existsb] in H.
  rewrite !orb_true_iff in H.
  destruct H as [H|[H|[H|[H|[H|H]]]]]; try discriminate;
    apply Byte.byte_dec_bl in H; rewrite H; reflexivity.
Qed.

Lemma jumpdest_not_push insn :
  Byte.eqb (opcode insn) JUMPDEST = true -> is_push insn = false.
Proof.
  intros H. apply Byte.byte_dec_bl in H. unfold is_push. now rewrite H.
Qed.

(** ** One iteration *)

Lemma loop_body_code code st :
  reading_code st || Byte.eqb (opcode (insn_at code (pc st))) JUMPDEST = true ->
  loop_body code st =
  {| pc := next_pc code (pc st);
     reading_code := negb (in_TERMINATING (opcode (insn_at code (pc st))));
     data_section := None;
     output :=
       finish st ++
       [if is_push (insn_at code (pc st))
           && (List.length (push_data_at code (pc st)) <? push_width (insn_at code (pc st)))
        then TruncatedLine (pc st) (push_width (insn_at code (pc st)))
               (push_data_at code (pc st))
        else InsnLine (pc st) (insn_at code (pc st))] |}.
Proof.
  intros H. unfold loop_body, insn_at, next_pc, push_data_at, finish, insn_at in *.
  destruct (decode_opcode code (pc st)) as [insn p'] eqn:E. cbn [fst snd] in *.
  now rewrite H.
Qed.

Lemma loop_body_data code st :
  pc st < List.length code ->
  reading_code st || Byte.eqb (opcode (insn_at code (pc st))) JUMPDEST = false ->
  loop_body code st =
  {| pc := next_pc code (pc st);
     reading_code := false;
     data_section :=
       Some {| start_pc :=
                 match data_section st with
                 | Some d => start_pc d
                 | None => pc st
                 end;
               data :=
                 match data_section st with
                 | Some d => data d
                 | None => []
                 end ++ slice code (pc st) (next_pc code (pc st)) |};
     output := output st |}.
Proof.
  intros Hlt H. rewrite <- decoded_bytes by assumption.
  unfold loop_body, insn_at, next_pc, push_data_at, insn_at in *.
  destruct (decode_opcode code (pc st)) as [insn p'] eqn:E. cbn [fst snd] in *.
  rewrite H. destruct (data_section st); reflexivity.
Qed.

Lemma loop_body_pc code st : pc (loop_body code st) = next_pc code (pc st).
Proof.
  unfold loop_body, next_pc.
  destruct (decode_opcode code (pc st)) as [insn p']. cbn [snd].
  destruct (_ || _); reflexivity.
Qed.

(** ** The loop *)

Lemma loop_done fuel code st :
  List.length code <= pc st -> loop fuel code st = Some st.
Proof.
  intros H. destruct fuel; simpl;
    destruct (Nat.ltb_spec (pc st) (List.length code)); auto; lia.
Qed.

Lemma loop_fuel code fuel :
  forall fuel' st,
    List.length code - pc st <= fuel ->
    List.length code - pc st <= fuel' ->
    loop fuel code st = loop fuel' code st.
Proof.
  induction fuel as [|fuel IH]; intros fuel' st H H'.
  - rewrite !loop_done by lia. reflexivity.
  - destruct (Nat.lt_ge_cases (pc st) (List.length code)) as [Hlt|Hge].
    2:{ rewrite !loop_done by lia. reflexivity. }
    destruct fuel' as [|fuel']; [lia |].
    simpl. destruct (Nat.ltb_spec (pc st) (List.length code)); [| lia].
    pose proof (next_pc_gt code (pc st) Hlt).
    apply IH; rewrite loop_body_pc; lia.
Qed.

Lemma run_unfold code st :
  run code st =
  if pc st <? List.length code then run code (loop_body code st) else Some st.
Proof.
  unfold run. destruct (Nat.ltb_spec (pc st) (List.length code)) as [Hlt|Hge].
  - destruct (List.length code - pc st) as [|n] eqn:E; [lia |].
    simpl. destruct (Nat.ltb_spec (pc st) (List.length code)); [| lia].
    pose proof (next_pc_gt code (pc st) Hlt).
    apply loop_fuel; rewrite loop_body_pc; lia.
  - now apply loop_done.
Qed.

Lemma run_step code st :
  pc st < List.length code -> run code st = run code (loop_body code st).
Proof.
  intros H. rewrite run_unfold.
  destruct (Nat.ltb_spec (pc st) (List.length code)); [reflexivity | lia].
Qed.

Lemma run_done code st : List.length code <= pc st -> run code st = Some st.
Proof. intros H. now apply loop_done. Qed.

Lemma run_initial code fuel :
  List.length code <= fuel -> loop fuel code initial = run code initial.
Proof. intros H. apply loop_fuel; simpl; lia. Qed.

(** Induction on the bytes left to read. *)
Lemma left_to_read_ind code (P : State -> Prop) :
  (forall st, List.length code <= pc st -> P st) ->
  (forall st, pc st < List.length code -> P (loop_body code st) -> P st) ->
  forall st, P st.
Proof.
  intros Hdone Hstep st.
  remember (List.length code - pc st) as n eqn:En.
  revert st En. induction n as [n IH] using lt_wf_ind. intros st En.
  destruct (Nat.lt_ge_cases (pc st) (List.length code)) as [Hlt|Hge]; [| auto].
  apply Hstep; [assumption |].
  pose proof (next_pc_gt code (pc st) Hlt).
  eapply IH; [| reflexivity]. rewrite loop_body_pc. lia.
Qed.

Lemma run_total code st :
  exists fin, run code st = Some fin /\ List.length code <= pc fin.
Proof.
  induction st as [st H|st H IH] using (left_to_read_ind code).
  - exists st. split; [now apply run_done | assumption].
  - rewrite run_step by assumption. exact IH.
Qed.

Lemma run_reachable code st fin :
  reachable code st -> run code st = Some fin -> reachable code fin.
Proof.
  induction st as [st H|st H IH] using (left_to_read_ind code); intros Hr Hrun.
  - rewrite run_done in Hrun by assumption. now injection Hrun as <-.
  - rewrite run_step in Hrun by assumption.
    apply IH; [now constructor | assumption].
Qed.

Lemma reachable_run code st :
  reachable code st -> run code st = run code initial.
Proof.
  induction 1 as [|st Hr IH Hlt]; [reflexivity |].
  now rewrite <- run_step.
Qed.

Lemma finish_output st : exists flush, finish st = output st ++ flush.
Proof.
  unfold finish. destruct (data_section st); eauto.
  exists []. now rewrite app_nil_r.
Qed.

Lemma run_output code st fin :
  run code st = Some fin -> exists rest, finish fin = output st ++ rest.
Proof.
  induction st as [st H|st H IH] using (left_to_read_ind code); intros Hrun.
  - rewrite run_done in Hrun by assumption. injection Hrun as <-.
    apply finish_output.
  - rewrite run_step in Hrun by assumption.
    destruct (IH Hrun) as [rest Hrest]. rewrite Hrest.
    destruct (reading_code st || Byte.eqb (opcode (insn_at code (pc st))) JUMPDEST) eqn:E.
    + rewrite (loop_body_code _ _ E). cbn [output].
      destruct (finish_output st) as [flush ->].
      rewrite <- !app_assoc. eauto.
    + rewrite (loop_body_data _ _ H E). cbn [output]. eauto.
Qed.

Lemma disassemble_lines_run code :
  disassemble_lines code = option_map finish (run code initial).
Proof. unfold disassemble_lines. now rewrite run_initial. Qed.

Lemma disassemble_lines_final code ls :
  disassemble_lines code = Some ls ->
  exists fin,
    reachable code fin /\ List.length code <= pc fin /\ ls = finish fin.
Proof.
  rewrite disassemble_lines_run. intros H.
  destruct (run_total code initial) as (fin & Hrun & Hpc).
  rewrite Hrun in H. injection H as <-.
  exists fin. repeat split; auto.
  eapply run_reachable; [constructor | eassumption].
Qed.

Lemma disassemble_lines_total code : exists ls, disassemble_lines code = Some ls.
Proof.
  rewrite disassemble_lines_run.
  destruct (run_total code initial) as (fin & -> & _). simpl. eauto.
Qed.

Lemma reachable_lines code st ls :
  reachable code st -> disassemble_lines code = Some ls ->
  exists fin, run code st = Some fin /\ ls = finish fin.
Proof.
  intros Hr. rewrite disassemble_lines_run, <- (reachable_run code st Hr).
  destruct (run code st) as [fin|]; [| discriminate].
  intros [= <-]. eauto.
Qed.

(** ** Invariants of the loop *)

Lemma reachable_pc code st : reachable code st -> pc st <= List.length code.
Proof.
  induction 1; [simpl; lia |]. rewrite loop_body_pc. apply next_pc_le.
Qed.

Lemma slice_nonempty code a b :
  a < b -> a < List.length code -> slice code a b <> [].
Proof.
  intros Hab Ha E. apply (f_equal (@List.length _)) in E.
  rewrite slice_length in E. simpl in E. lia.
Qed.

Lemma reachable_data code st d :
  reachable code st -> data_section st = Some d ->
  reading_code st = false /\ data d <> [] /\ start_pc d < pc st /\
  data d = slice code (start_pc d) (pc st).
Proof.
  intros Hr. revert d. induction Hr as [|st Hr IH Hlt]; intros d Hd;
    [discriminate |].
  pose proof (next_pc_gt code (pc st) Hlt) as Hgt.
  destruct (reading_code st || Byte.eqb (opcode (insn_at code (pc st))) JUMPDEST) eqn:E.
  - rewrite (loop_body_code _ _ E) in Hd. discriminate.
  - rewrite (loop_body_data _ _ Hlt E) in *. cbn [data_section] in Hd.
    injection Hd as <-. cbn [reading_code pc start_pc data].
    destruct (data_section st) as [d0|].
    + destruct (IH d0 eq_refl) as (_ & Hne & Hs & Hd0).
      repeat split; [| lia |].
      * intros E'. apply app_eq_nil in E'. tauto.
      * rewrite Hd0. apply slice_app; lia.
    + repeat split; [| lia].
      cbn [app]. now apply slice_nonempty.
Qed.

Lemma reachable_code_mode code st :
  reachable code st -> reading_code st = true -> data_section st = None.
Proof.
  intros Hr Hc. destruct (data_section st) as [d|] eqn:E; [| reflexivity].
  destruct (reachable_data code st d Hr E) as (H & _). congruence.
Qed.

Lemma tiles_snoc code p ls q l :
  tiles code p ls q -> line_offset l = q -> describes code l ->
  tiles code p (ls ++ [l]) (q + line_size l).
Proof.
  induction 1 as [p|p l' ls q Ho Hd Ht IH]; intros Hl Hdl; cbn [app].
  - constructor; auto. subst. constructor.
  - constructor; auto.
Qed.

Lemma tiles_app_inv code l1 :
  forall p l2 q,
    tiles code p (l1 ++ l2) q ->
    exists m, tiles code p l1 m /\ tiles code m l2 q.
Proof.
  induction l1 as [|l l1 IH]; intros p l2 q H; cbn [app] in H.
  - exists p. split; [constructor | assumption].
  - inversion H as [|p' l' ls' q' Ho Hd Ht]; subst.
    destruct (IH _ _ _ Ht) as (m & H1 & H2).
    exists m. split; [constructor; auto | assumption].
Qed.

Lemma describes_size_pos code l : describes code l -> 0 < line_size l.
Proof.
  destruct l as [p insn|p w pd|d]; simpl; try lia.
  intros [Hne _]. destruct (data d); [congruence | simpl; lia].
Qed.

Lemma tiles_le code p ls q : tiles code p ls q -> p <= q.
Proof. induction 1; lia. Qed.

Lemma data_line_describes code st d :
  reachable code st -> data_section st = Some d ->
  describes code (DataLine d) /\ start_pc d + line_size (DataLine d) = pc st.
Proof.
  intros Hr Hd. destruct (reachable_data code st d Hr Hd) as (_ & Hne & Hs & Hdata).
  pose proof (reachable_pc code st Hr) as Hpc.
  assert (Hlen : List.length (data d) = pc st - start_pc d).
  { rewrite Hdata at 1. rewrite slice_length. lia. }
  simpl. rewrite Hlen. repeat split; auto; [| lia].
  now replace (start_pc d + (pc st - start_pc d)) with (pc st) by lia.
Qed.

Lemma code_line_describes code p :
  p < List.length code ->
  let l :=
    if is_push (insn_at code p)
       && (List.length (push_data_at code p) <? push_width (insn_at code p))
    then TruncatedLine p (push_width (insn_at code p)) (push_data_at code p)
    else InsnLine p (insn_at code p) in
  line_offset l = p /\ describes code l /\ p + line_size l = next_pc code p.
Proof.
  intros Hp. cbn zeta. rewrite next_pc_eq.
  destruct (is_push (insn_at code p)) eqn:Epush; cbn [andb].
  - destruct (Nat.ltb_spec (List.length (push_data_at code p)) (push_width (insn_at code p)))
      as [Hlt|Hge].
    + unfold push_data_at in *. rewrite Epush in *. rewrite slice_length in Hlt.
      cbn [line_offset describes line_size].
      rewrite slice_to_end by lia. rewrite length_skipn.
      repeat split; auto; lia.
    + cbn [line_offset describes line_size]. rewrite insn_at_operand.
      unfold push_data_at in *. rewrite Epush in *. rewrite slice_length in *.
      repeat split; auto; lia.
  - cbn [line_offset describes line_size]. rewrite insn_at_operand.
    unfold push_data_at. rewrite Epush. cbn [List.length].
    repeat split; auto; try lia; congruence.
Qed.

Lemma finish_tiles code st :
  reachable code st ->
  tiles code 0 (output st) (pending_from st) ->
  tiles code 0 (finish st) (pc st).
Proof.
  intros Hr Ht. unfold finish, pending_from in *.
  destruct (data_section st) as [d|] eqn:E; [| assumption].
  destruct (data_line_describes code st d Hr E) as (Hd & Hsz).
  rewrite <- Hsz. apply tiles_snoc; auto.
Qed.

Lemma reachable_tiles code st :
  reachable code st -> tiles code 0 (output st) (pending_from st).
Proof.
  induction 1 as [|st Hr IH Hlt]; [constructor |].
  destruct (reading_code st || Byte.eqb (opcode (insn_at code (pc st))) JUMPDEST) eqn:E.
  - rewrite (loop_body_code _ _ E). unfold pending_from. cbn [data_section output pc].
    destruct (code_line_describes code (pc st) Hlt) as (Ho & Hd & Hn).
    rewrite <- Hn. apply tiles_snoc; auto using finish_tiles.
  - rewrite (loop_body_data _ _ Hlt E). unfold pending_from in *.
    cbn [data_section output start_pc].
    destruct (data_section st); assumption.
Qed.

Lemma final_tiles code ls :
  disassemble_lines code = Some ls -> tiles code 0 ls (List.length code).
Proof.
  intros H. destruct (disassemble_lines_final code ls H) as (fin & Hr & Hpc & ->).
  pose proof (reachable_pc code fin Hr).
  replace (List.length code) with (pc fin) by lia.
  auto using finish_tiles, reachable_tiles.
Qed.

Lemma data_follows_snoc ls l :
  data_follows_code ls ->
  (forall d, l = DataLine d -> after_terminator ls) ->
  data_follows_code (ls ++ [l]).
Proof.
  intros Hls Hl l1 d l2. induction l2 as [|y l2 _] using rev_ind; intros E.
  - apply app_inj_tail in E. destruct E as [-> ->]. eauto.
  - change (l1 ++ DataLine d :: l2 ++ [y]) with (l1 ++ (DataLine d :: l2) ++ [y]) in E.
    rewrite app_assoc in E. apply app_inj_tail in E. destruct E as [-> _].
    eapply Hls. reflexivity.
Qed.

Lemma reachable_after_terminator code st :
  reachable code st -> reading_code st = false -> after_terminator (output st).
Proof.
  induction 1 as [|st Hr IH Hlt]; [discriminate |].
  destruct (reading_code st || Byte.eqb (opcode (insn_at code (pc st))) JUMPDEST) eqn:E.
  - rewrite (loop_body_code _ _ E). cbn [reading_code output]. intros Ht.
    apply negb_false_iff in Ht.
    rewrite (terminating_not_push _ _ eq_refl Ht). cbn [andb].
    exists (finish st), (pc st), (insn_at code (pc st)). auto.
  - rewrite (loop_body_data _ _ Hlt E). cbn [reading_code output]. intros _.
    apply orb_false_iff in E. tauto.
Qed.

Lemma finish_data_follows code st :
  reachable code st -> data_follows_code (output st) ->
  data_follows_code (finish st).
Proof.
  intros Hr H. unfold finish. destruct (data_section st) as [d|] eqn:E; [| assumption].
  apply data_follows_snoc; [assumption |]. intros _ _.
  destruct (reachable_data code st d Hr E) as (Hm & _).
  eauto using reachable_after_terminator.
Qed.

Lemma reachable_data_follows code st :
  reachable code st -> data_follows_code (output st).
Proof.
  induction 1 as [|st Hr IH Hlt].
  - intros l1 d l2 E. destruct l1; discriminate.
  - destruct (reading_code st || Byte.eqb (opcode (insn_at code (pc st))) JUMPDEST) eqn:E.
    + rewrite (loop_body_code _ _ E). cbn [output].
      apply data_follows_snoc; [eauto using finish_data_follows |].
      intros d Hd. destruct (_ && _); discriminate.
    + rewrite (loop_body_data _ _ Hlt E). assumption.
Qed.

(** ** The end of a data region *)

Lemma next_jumpdest_done fuel code p :
  List.length code <= p -> next_jumpdest fuel code p = List.length code.
Proof.
  intros H. destruct fuel; simpl;
    destruct (Nat.ltb_spec p (List.length code)); auto; lia.
Qed.

Lemma next_jumpdest_fuel code fuel :
  forall fuel' p,
    List.length code - p <= fuel ->
    List.length code - p <= fuel' ->
    next_jumpdest fuel code p = next_jumpdest fuel' code p.
Proof.
  induction fuel as [|fuel IH]; intros fuel' p H H'.
  - rewrite !next_jumpdest_done by lia. reflexivity.
  - destruct (Nat.lt_ge_cases p (List.length code)) as [Hlt|Hge].
    2:{ rewrite !next_jumpdest_done by lia. reflexivity. }
    destruct fuel' as [|fuel']; [lia |].
    simpl. destruct (Nat.ltb_spec p (List.length code)); [| lia].
    destruct (Byte.eqb _ _); [reflexivity |].
    pose proof (next_pc_gt code p Hlt).
    apply IH; lia.
Qed.

Lemma data_end_unfold code p :
  data_end code p =
  if p <? List.length code then
    if Byte.eqb (nth p code STOP) JUMPDEST then p
    else data_end code (next_pc code p)
  else List.length code.
Proof.
  unfold data_end. destruct (Nat.ltb_spec p (List.length code)) as [Hlt|Hge].
  - destruct (List.length code - p) as [|n] eqn:E; [lia |].
    simpl. destruct (Nat.ltb_spec p (List.length code)); [| lia].
    destruct (Byte.eqb _ _); [reflexivity |].
    pose proof (next_pc_gt code p Hlt).
    apply next_jumpdest_fuel; lia.
  - now apply next_jumpdest_done.
Qed.

(** Induction on the offsets left to scan. *)
Lemma offset_ind code (P : nat -> Prop) :
  (forall p, List.length code <= p -> P p) ->
  (forall p, p < List.length code -> P (next_pc code p) -> P p) ->
  forall p, P p.
Proof.
  intros Hdone Hstep p.
  remember (List.length code - p) as n eqn:En.
  revert p En. induction n as [n IH] using lt_wf_ind. intros p En.
  destruct (Nat.lt_ge_cases p (List.length code)) as [Hlt|Hge]; [| auto].
  apply Hstep; [assumption |].
  pose proof (next_pc_gt code p Hlt).
  eapply IH; [| reflexivity]. lia.
Qed.


Lemma data_end_jumpdest code p :
  data_end code p < List.length code ->
  Byte.eqb (nth (data_end code p) code STOP) JUMPDEST = true.
Proof.
  induction p as [p H|p H IH] using (offset_ind code);
    rewrite data_end_unfold;
    destruct (Nat.ltb_spec p (List.length code)); try lia.
  destruct (Byte.eqb (nth p code STOP) JUMPDEST) eqn:E; auto.
Qed.



(** ** A run of plain instructions *)

Lemma plain_reachable code n :
  n <= List.length code ->
  (forall i, i < n -> plain (nth i code STOP) = true) ->
  reachable code (plain_state code n).
Proof.
  induction n as [|n IH]; intros Hn Hplain; [constructor |].
  assert (Hstep : loop_body code (plain_state code n) = plain_state code (S n)).
  { rewrite loop_body_code by reflexivity.
    unfold finish, plain_state. cbn [pc data_section output].
    pose proof (Hplain n ltac:(lia)) as Hp. unfold plain in Hp.
    apply andb_true_iff in Hp. destruct Hp as [Hpush Hterm].
    apply negb_true_iff in Hpush.
    assert (Hpush' : is_push (insn_at code n) = false) by exact Hpush.
    rewrite insn_at_opcode, Hterm, Hpush'. cbn [andb].
    rewrite seq_S, map_app. cbn [map Nat.add].
    f_equal. rewrite next_pc_eq. unfold push_data_at. rewrite Hpush'.
    cbn [List.length]. lia. }
  rewrite <- Hstep. constructor; [apply IH; auto with arith | simpl; lia].
Qed.

(** ** What the listing says *)

Lemma tiles_In code p ls q l :
  tiles code p ls q -> In l ls -> describes code l.
Proof.
  induction 1 as [p|p l' ls q Ho Hd Ht IH]; intros Hin; [contradiction |].
  destruct Hin as [<-|Hin]; auto.
Qed.

Lemma tiles_increasing code p ls q l1 a b l2 :
  tiles code p ls q -> ls = l1 ++ a :: b :: l2 -> line_offset a < line_offset b.
Proof.
  intros Ht ->. apply tiles_app_inv in Ht. destruct Ht as (m & _ & Ht).
  inversion Ht as [|? ? ? ? Ha Hda Ht']; subst.
  inversion Ht' as [|? ? ? ? Hb Hdb _]; subst.
  pose proof (describes_size_pos code a Hda). lia.
Qed.

Lemma render_line_offset l :
  exists rest,
    render_line l = (Fmt.format_x 4 (N.of_nat (line_offset l)) ++ ": " ++ rest)%string.
Proof.
  destruct l as [p insn|p w pd|d]; cbn [render_line line_offset].
  - eauto.
  - exists ("PUSH" ++ Fmt.dec w ++ " 0x" ++ Fmt.bytes_hex pd ++ " # truncated")%string.
    reflexivity.
  - exists ("DATA 0x" ++ Fmt.format_x (List.length (data d) * 2)
                          (Fmt.int_from_bytes (data d)))%string.
    reflexivity.
Qed.

Lemma describes_offset code l : describes code l -> line_offset l < List.length code.
Proof.
  destruct l as [p insn|p w pd|d]; cbn [describes line_offset]; try tauto.
  intros [Hne Hd]. apply (f_equal (@List.length _)) in Hd.
  rewrite slice_length in Hd.
  destruct (data d); [congruence | simpl in Hd; lia].
Qed.

Lemma offset_prefix4_digits n rest :
  Fmt.offset_prefix4 (Fmt.digits 4 n ++ ": " ++ rest) = true.
Proof.
  cbn [Fmt.digits]. simpl. now rewrite !hex_digit_is_hex.
Qed.

(** The last line of a truncated push. *)
Lemma truncated_push_last code st :
  reachable code st -> pc st < List.length code -> reading_code st = true ->
  is_push (insn_at code (pc st)) = true ->
  List.length code < pc st + 1 + push_width (insn_at code (pc st)) ->
  disassemble_lines code =
  Some (output st ++
        [TruncatedLine (pc st) (push_width (insn_at code (pc st)))
           (skipn (pc st + 1) code)]).
Proof.
  intros Hr Hlt Hm Hpush Hover.
  rewrite disassemble_lines_run, <- (reachable_run code st Hr).
  rewrite run_step by assumption.
  assert (Hdata : push_data_at code (pc st) = skipn (pc st + 1) code).
  { unfold push_data_at. rewrite Hpush. apply slice_to_end. lia. }
  rewrite loop_body_code by (rewrite Hm; reflexivity).
  rewrite run_done.
  2:{ cbn [pc]. rewrite next_pc_eq, Hdata, length_skipn. lia. }
  unfold finish at 1. cbn [option_map data_section output].
  unfold finish. rewrite (reachable_code_mode code st Hr Hm).
  rewrite Hpush, Hdata. cbn [andb].
  destruct (Nat.ltb_spec (List.length (skipn (pc st + 1) code))
              (push_width (insn_at code (pc st)))) as [_|Hge]; [reflexivity |].
  rewrite length_skipn in Hge. lia.
Qed.

(** The line of a plain instruction reached through plain instructions. *)
Lemma plain_line code n ls :
  n < List.length code ->
  (forall i, i <= n -> plain (nth i code STOP) = true) ->
  disassemble_lines code = Some ls ->
  In (InsnLine n (insn_at code n)) ls.
Proof.
  intros Hn Hplain Hls.
  assert (Hr : reachable code (plain_state code n))
    by (apply plain_reachable; [lia | auto with arith]).
  assert (Hr' : reachable code (loop_body code (plain_state code n)))
    by (constructor; assumption).
  destruct (reachable_lines _ _ _ Hr' Hls) as (fin & Hrun & ->).
  destruct (run_output _ _ _ Hrun) as [rest ->].
  rewrite loop_body_code by reflexivity. cbn [output pc plain_state].
  pose proof (Hplain n (le_n n)) as Hp. unfold plain in Hp.
  apply andb_true_iff in Hp. destruct Hp as [Hpush _].
  apply negb_true_iff in Hpush.
  assert (Hpush' : is_push (insn_at code n) = false) by exact Hpush.
  rewrite Hpush'. cbn [andb].
  apply in_or_app. left. apply in_or_app. right. now left.
Qed.

(** ** The properties of the pass *)

(** C8: the listing of the empty buffer is empty, and the pass returns
    it: the loop test fails at once, whatever the bound on the iterations,
    and there is nothing to flush. *)
Theorem disassemble_empty :
  disassemble [] = Some [] /\
  forall fuel, loop fuel [] initial = Some initial /\ finish initial = [].
Proof.
  split; [reflexivity |].
  intros fuel. split; [| reflexivity].
  apply loop_done. simpl. lia.
Qed.

(** C5: on every buffer the loop exits and [disassemble] returns a
    listing: the decoder leaves the cursor at least one byte further and
    never past the end, so as many iterations as the buffer has bytes are
    always enough, and more change nothing. *)
Theorem disassemble_terminates code :
  (forall p, p < List.length code ->
             p < next_pc code p /\ next_pc code p <= List.length code) /\
  exists lines,
    disassemble code = Some lines /\
    forall fuel,
      List.length code <= fuel ->
      option_map (fun st => map render_line (finish st)) (loop fuel code initial)
      = Some lines.
Proof.
  split; [auto using next_pc_gt, next_pc_le |].
  destruct (run_total code initial) as (fin & Hrun & _).
  exists (map render_line (finish fin)). split.
  - unfold disassemble. rewrite disassemble_lines_run, Hrun. reflexivity.
  - intros fuel Hfuel. rewrite run_initial by assumption. now rewrite Hrun.
Qed.

(** C7: between two iterations an open data section holds at least one
    byte and the pass is then in data mode; every data section that is
    rendered, in the loop or by the flush after it, holds at least one
    byte. *)
Theorem data_section_nonempty code st :
  reachable code st ->
  (forall d, data_section st = Some d ->
             data d <> [] /\ reading_code st = false) /\
  (forall d, In (DataLine d) (finish st) -> data d <> []).
Proof.
  intros Hr. split.
  - intros d Hd. destruct (reachable_data code st d Hr Hd) as (Hm & Hne & _).
    auto.
  - intros d Hin.
    pose proof (finish_tiles code st Hr (reachable_tiles code st Hr)) as Ht.
    destruct (tiles_In _ _ _ _ _ Ht Hin) as [Hne _]. exact Hne.
Qed.

(** C6: the payload of a data line has two digits for each byte of the
    region, the digits of the bytes in order, leading zero bytes
    included, and reads back as the big-endian integer of the bytes. *)
Theorem data_line_payload code ls d :
  disassemble_lines code = Some ls -> In (DataLine d) ls ->
  exists payload,
    render_line (DataLine d)
    = (Fmt.format_x 4 (N.of_nat (start_pc d)) ++ ": DATA 0x" ++ payload)%string /\
    String.length payload = 2 * List.length (data d) /\
    payload = Fmt.bytes_hex (data d) /\
    Fmt.all_chars Fmt.is_hex_lower payload = true /\
    Fmt.hex_value payload = Fmt.int_from_bytes (data d).
Proof.
  intros Hls Hin.
  destruct (tiles_In _ _ _ _ _ (final_tiles code ls Hls) Hin) as [Hne _].
  exists (Fmt.format_x (List.length (data d) * 2) (Fmt.int_from_bytes (data d))).
  split; [reflexivity |]. split; [| split; [| split]].
  - rewrite data_payload by assumption. apply bytes_hex_length.
  - now apply data_payload.
  - apply format_x_all_hex.
  - apply format_x_value.
Qed.

(** C10: every data line of the listing comes right after the line of an
    instruction, a terminating one; the listing does not begin with a data
    line, and no two data lines are next to each other. *)
Theorem data_line_after_code code ls :
  disassemble_lines code = Some ls ->
  (forall l1 d l2,
      ls = l1 ++ DataLine d :: l2 ->
      exists l0 pc insn,
        l1 = l0 ++ [InsnLine pc insn] /\ in_TERMINATING (opcode insn) = true) /\
  (forall d l2, ls <> DataLine d :: l2) /\
  (forall l1 d d' l2, ls <> l1 ++ DataLine d :: DataLine d' :: l2).
Proof.
  intros Hls.
  destruct (disassemble_lines_final code ls Hls) as (fin & Hr & _ & ->).
  pose proof (finish_data_follows code fin Hr (reachable_data_follows code fin Hr)) as H.
  split; [exact H |]. split.
  - intros d l2 E. destruct (H [] d l2 E) as (l0 & p & insn & E' & _).
    destruct l0; discriminate.
  - intros l1 d d' l2 E.
    assert (E' : finish fin = (l1 ++ [DataLine d]) ++ DataLine d' :: l2)
      by (rewrite <- app_assoc; exact E).
    destruct (H _ _ _ E') as (l0 & p & insn & E'' & _).
    apply app_inj_tail in E''. destruct E'' as [_ E'']. discriminate.
Qed.

(** C4: the offsets of the lines are strictly increasing; every line
    shows what the buffer holds at its offset, the lines follow one another
    without a gap from offset 0 to the end of the buffer, and the offset
    written at the head of a line reads back as that offset. *)
Theorem offsets_increasing code ls :
  disassemble_lines code = Some ls ->
  (forall l1 a b l2, ls = l1 ++ a :: b :: l2 -> line_offset a < line_offset b) /\
  tiles code 0 ls (List.length code) /\
  (forall l, In l ls ->
     describes code l /\
     exists rest,
       render_line l
       = (Fmt.format_x 4 (N.of_nat (line_offset l)) ++ ": " ++ rest)%string /\
       Fmt.hex_value (Fmt.format_x 4 (N.of_nat (line_offset l)))
       = N.of_nat (line_offset l)).
Proof.
  intros Hls. pose proof (final_tiles code ls Hls) as Ht.
  split; [| split].
  - intros l1 a b l2 E. eapply tiles_increasing; eassumption.
  - exact Ht.
  - intros l Hin. split; [eapply tiles_In; eassumption |].
    destruct (render_line_offset l) as [rest Hrest].
    exists rest. split; [exact Hrest | apply format_x_value].
Qed.

(** C9, amended: every line of the listing is the text of a line that
    shows what the buffer holds at its offset, and begins with that offset
    (each line with its own),
    written in lowercase hexadecimal digits and padded with zeros to at
    least 4 digits, followed by a colon and a space; the digits are exactly
    4 when the offset is below 65536, so on every line of a buffer of at
    most 65536 bytes. *)
Theorem line_offset_prefix code lines line :
  disassemble code = Some lines -> In line lines ->
  exists ls l off rest,
    disassemble_lines code = Some ls /\ lines = map render_line ls /\
    (forall l', In l' ls ->
       exists rest',
         render_line l'
         = (Fmt.format_x 4 (N.of_nat (line_offset l')) ++ ": " ++ rest')%string) /\
    In l ls /\ line = render_line l /\ describes code l /\
    off = line_offset l /\
    off < List.length code /\
    line = (Fmt.format_x 4 (N.of_nat off) ++ ": " ++ rest)%string /\
    Fmt.all_chars Fmt.is_hex_lower (Fmt.format_x 4 (N.of_nat off)) = true /\
    Fmt.hex_value (Fmt.format_x 4 (N.of_nat off)) = N.of_nat off /\
    4 <= String.length (Fmt.format_x 4 (N.of_nat off)) /\
    ((N.of_nat off < 65536)%N ->
     String.length (Fmt.format_x 4 (N.of_nat off)) = 4 /\
     Fmt.offset_prefix4 line = true) /\
    ((N.of_nat (List.length code) <= 65536)%N -> Fmt.offset_prefix4 line = true).
Proof.
  unfold disassemble. intros Hd Hin.
  destruct (disassemble_lines code) as [ls|] eqn:Hls; [| discriminate].
  injection Hd as <-. apply in_map_iff in Hin. destruct Hin as (l & <- & Hin).
  pose proof (tiles_In _ _ _ _ _ (final_tiles code ls Hls) Hin) as Hdesc.
  pose proof (describes_offset code l Hdesc) as Hoff.
  destruct (render_line_offset l) as [rest Hrest].
  assert (Hsmall : (N.of_nat (line_offset l) < 65536)%N ->
                   String.length (Fmt.format_x 4 (N.of_nat (line_offset l))) = 4 /\
                   Fmt.offset_prefix4 (render_line l) = true).
  { intros Hlt. rewrite Hrest.
    rewrite format_x_digits by exact Hlt.
    split; [apply digits_length | apply offset_prefix4_digits]. }
  exists ls, l, (line_offset l), rest.
  split; [reflexivity |]. split; [reflexivity |].
  split; [intros l' _; apply render_line_offset |]. split; [exact Hin |].
  split; [reflexivity |]. split; [exact Hdesc |]. split; [reflexivity |].
  split; [exact Hoff |]. split; [exact Hrest |].
  split; [apply format_x_all_hex |]. split; [apply format_x_value |].
  split; [apply format_x_length_ge |]. split; [exact Hsmall |].
  intros Hlen. apply Hsmall. lia.
Qed.

(** C3, amended: a push decoded in code mode whose operand would end past
    the end of the buffer is rendered as the offset (in hexadecimal, padded
    to at least 4 digits, exactly 4 below 65536), [": PUSH"], the width,
    [" 0x"], the digits of the bytes that are there and [" # truncated"];
    it is the last line of the listing.  The buffer of the single byte 0x60
    gives the one line ["0000: PUSH1 0x # truncated"]. *)
Theorem truncated_push_line code st :
  reachable code st -> pc st < List.length code -> reading_code st = true ->
  is_push (insn_at code (pc st)) = true ->
  List.length code < pc st + 1 + push_width (insn_at code (pc st)) ->
  let width := push_width (insn_at code (pc st)) in
  let available := skipn (pc st + 1) code in
  let offset := Fmt.format_x 4 (N.of_nat (pc st)) in
  disassemble code =
  Some (map render_line (output st) ++
        [(offset ++ ": PUSH" ++ Fmt.dec width ++ " 0x"
            ++ Fmt.bytes_hex available ++ " # truncated")%string]) /\
  4 <= String.length offset /\
  ((N.of_nat (pc st) < 65536)%N -> String.length offset = 4) /\
  disassemble [x60] = Some ["0000: PUSH1 0x # truncated"].
Proof.
  intros Hr Hlt Hm Hpush Hover. cbn zeta. repeat split.
  - unfold disassemble.
    rewrite (truncated_push_last code st Hr Hlt Hm Hpush Hover).
    cbn [option_map]. now rewrite map_app.
  - apply format_x_length_ge.
  - intros Hsmall. now apply format_x_length_exact.
Qed.

(** C2: when the byte decoded in data mode is a JUMPDEST, the iteration
    first appends the line of the open data section, if there is one, then
    the line of the JUMPDEST at its own offset, and leaves the pass in
    code mode with no data section; these lines stay in the listing.  The
    section is rendered as a DATA line: its offset, [": DATA 0x"] and the
    digits of the bytes from that offset up to the JUMPDEST. *)
Theorem jumpdest_reopens_code code st :
  reachable code st -> pc st < List.length code -> reading_code st = false ->
  nth (pc st) code STOP = JUMPDEST ->
  let st' := loop_body code st in
  let insn := insn_at code (pc st) in
  opcode insn = JUMPDEST /\
  output st' =
    output st
    ++ match data_section st with
       | Some d => [DataLine d]
       | None => []
       end
    ++ [InsnLine (pc st) insn] /\
  render_line (InsnLine (pc st) insn)
  = (Fmt.format_x 4 (N.of_nat (pc st)) ++ ": " ++ mnemonic JUMPDEST)%string /\
  reading_code st' = true /\
  data_section st' = None /\
  pc st' = pc st + 1 /\
  (forall d, data_section st = Some d ->
             data d = slice code (start_pc d) (pc st) /\ data d <> [] /\
             render_line (DataLine d)
             = (Fmt.format_x 4 (N.of_nat (start_pc d)) ++ ": DATA 0x"
                  ++ Fmt.bytes_hex (slice code (start_pc d) (pc st)))%string) /\
  (forall ls, disassemble_lines code = Some ls ->
              exists rest, ls = output st' ++ rest).
Proof.
  intros Hr Hlt Hm Hj. cbn zeta.
  assert (Hop : opcode (insn_at code (pc st)) = JUMPDEST) by exact Hj.
  assert (E : reading_code st || Byte.eqb (opcode (insn_at code (pc st))) JUMPDEST = true)
    by (rewrite Hop, orb_true_r; reflexivity).
  assert (Hpush : is_push (insn_at code (pc st)) = false)
    by (apply jumpdest_not_push; rewrite Hop; reflexivity).
  rewrite (loop_body_code _ _ E).
  cbn [output reading_code data_section pc].
  rewrite Hpush, Hop. cbn [andb].
  split; [reflexivity |]. split.
  { unfold finish. destruct (data_section st); [| reflexivity].
    now rewrite <- app_assoc. }
  split.
  { cbn [render_line]. unfold Instruction_str. rewrite Hpush.
    unfold insn_at, decode_opcode. cbn [fst name]. now rewrite Hj. }
  split; [reflexivity |]. split; [reflexivity |]. split.
  { rewrite next_pc_eq. unfold push_data_at. rewrite Hpush. cbn [List.length]. lia. }
  split.
  { intros d Hd. destruct (reachable_data code st d Hr Hd) as (_ & Hne & _ & Hdata).
    split; [exact Hdata |]. split; [exact Hne |].
    cbn [render_line]. unfold DataSection_render.
    rewrite data_payload by exact Hne. now rewrite <- Hdata. }
  intros ls Hls.
  assert (Hr' : reachable code (loop_body code st)) by (constructor; assumption).
  destruct (reachable_lines _ _ _ Hr' Hls) as (fin & Hrun & ->).
  destruct (run_output _ _ _ Hrun) as [rest ->].
  rewrite (loop_body_code _ _ E). cbn [output]. rewrite Hpush. cbn [andb].
  eauto.
Qed.



(** ** Reading the text back *)

Lemma substring_all s : substring 0 (String.length s) s = s.
Proof. induction s as [|c s IH]; simpl; [reflexivity | now rewrite IH]. Qed.

Lemma prefix_empty s : String.prefix "" s = true.
Proof. destruct s; reflexivity. Qed.

Lemma strip_0x_prefixed r : strip_0x ("0x" ++ r) = r.
Proof.
  unfold strip_0x. cbn. rewrite prefix_empty, Nat.sub_0_r. apply substring_all.
Qed.

Lemma strip_0x_other s : String.prefix "0x" s = false -> strip_0x s = s.
Proof. intros H. unfold strip_0x. now rewrite H, andb_false_r. Qed.

Lemma prefix_0x s :
  String.prefix "0x" s = true -> exists r, s = ("0x" ++ r)%string.
Proof.
  destruct s as [|a [|b r]]; cbn [String.prefix]; try discriminate.
  - destruct (ascii_dec "0" a); discriminate.
  - destruct (ascii_dec "0" a) as [<-|]; [| discriminate].
    destruct (ascii_dec "x" b) as [<-|]; [| discriminate].
    intros _. now exists r.
Qed.

Lemma hex_digit_not_space d : is_space (Fmt.hex_digit d) = false.
Proof.
  destruct d as [|p]; [reflexivity |].
  do 4 (destruct p as [p|p|]; try reflexivity).
Qed.

Lemma fromhex_digit_hex_digit d :
  (d < 16)%N -> fromhex_digit (Fmt.hex_digit d) = Some d.
Proof.
  intros H. destruct d as [|p]; [reflexivity |].
  do 4 (destruct p as [p|p|]; try reflexivity); lia.
Qed.

Lemma hex_digit_not_x d : Fmt.hex_digit d <> "x"%char.
Proof.
  intros E. pose proof (hex_digit_is_hex d) as H. rewrite E in H. discriminate.
Qed.

Lemma byte_of_nibbles b :
  Byte.of_N (16 * (Byte.to_N b / 16) + Byte.to_N b mod 16) = Some b.
Proof.
  replace (16 * (Byte.to_N b / 16) + Byte.to_N b mod 16)%N with (Byte.to_N b)
    by (zify; Z.to_euclidean_division_equations; lia).
  apply Byte.of_to_N.
Qed.

Lemma fromhex_byte_hex b t :
  fromhex (Fmt.byte_hex b ++ t) =
  match fromhex t with
  | Some bs => Some (b :: bs)
  | None => None
  end.
Proof.
  pose proof (byte_lt_256 b) as Hb.
  unfold Fmt.byte_hex. cbn [append fromhex].
  rewrite hex_digit_not_space.
  rewrite !fromhex_digit_hex_digit
    by (try apply N.mod_lt; zify; Z.to_euclidean_division_equations; lia).
  now rewrite byte_of_nibbles.
Qed.

Lemma fromhex_bytes_hex bs t :
  fromhex (Fmt.bytes_hex bs ++ t) =
  match fromhex t with
  | Some bs' => Some (bs ++ bs')
  | None => None
  end.
Proof.
  induction bs as [|b bs IH]; cbn [Fmt.bytes_hex app].
  - cbn [append]. now destruct (fromhex t).
  - rewrite append_assoc, fromhex_byte_hex, IH. now destruct (fromhex t).
Qed.

Lemma strip_0x_bytes_hex b bs t :
  strip_0x (Fmt.bytes_hex (b :: bs) ++ t) = (Fmt.bytes_hex (b :: bs) ++ t)%string.
Proof.
  apply strip_0x_other. cbn [Fmt.bytes_hex Fmt.byte_hex append String.prefix].
  destruct (ascii_dec "0" _); [| reflexivity].
  destruct (ascii_dec "x" _) as [E|]; [| reflexivity].
  symmetry in E. now apply hex_digit_not_x in E.
Qed.

Lemma parse_code_bytes_hex bs t :
  strip_0x t = t ->
  parse_code (Fmt.bytes_hex bs ++ t) =
  match fromhex t with
  | Some bs' => Some (bs ++ bs')
  | None => None
  end.
Proof.
  intros Ht. unfold parse_code. destruct bs as [|b bs].
  - cbn [Fmt.bytes_hex append]. rewrite Ht.
    change t with (Fmt.bytes_hex [] ++ t)%string at 1. apply fromhex_bytes_hex.
  - rewrite strip_0x_bytes_hex. apply fromhex_bytes_hex.
Qed.

(** X1: [strip_0x] removes one leading lowercase ["0x"] and nothing else:
    a text that begins with it loses these two characters, any other text
    is returned as it is; the result is a text that would be stripped
    again only if the prefix was written twice. *)
Theorem strip_0x_spec s :
  (exists r, s = ("0x" ++ r)%string /\ strip_0x s = r) \/
  (String.prefix "0x" s = false /\ strip_0x s = s).
Proof.
  destruct (String.prefix "0x" s) eqn:E.
  - left. destruct (prefix_0x s E) as [r ->]. exists r.
    split; [reflexivity | apply strip_0x_prefixed].
  - right. split; [reflexivity | now apply strip_0x_other].
Qed.

Lemma parse_code_plain bs t :
  strip_0x t = t -> fromhex t = Some [] ->
  parse_code (Fmt.bytes_hex bs ++ t) = Some bs.
Proof.
  intros Hs Ht. rewrite parse_code_bytes_hex by assumption.
  now rewrite Ht, app_nil_r.
Qed.

Lemma parse_code_prefixed bs t :
  fromhex t = Some [] ->
  parse_code ("0x" ++ Fmt.bytes_hex bs ++ t) = Some bs.
Proof.
  intros Ht. unfold parse_code.
  now rewrite strip_0x_prefixed, fromhex_bytes_hex, Ht, app_nil_r.
Qed.

(** X2: the text of a buffer in hexadecimal, as [bytes.hex] writes it, is
    read back as that buffer, with or without the ["0x"] in front, and
    with the newline a file ends with. *)
Theorem parse_code_round_trip bs :
  parse_code (Fmt.bytes_hex bs) = Some bs /\
  parse_code ("0x" ++ Fmt.bytes_hex bs) = Some bs /\
  parse_code (Fmt.bytes_hex bs ++ newline) = Some bs /\
  parse_code ("0x" ++ Fmt.bytes_hex bs ++ newline) = Some bs.
Proof.
  split; [| split; [| split]].
  - rewrite <- (append_empty_r (Fmt.bytes_hex bs)).
    now apply parse_code_plain.
  - rewrite <- (append_empty_r (Fmt.bytes_hex bs)).
    now apply parse_code_prefixed.
  - now apply parse_code_plain.
  - now apply parse_code_prefixed.
Qed.

Lemma fromhex_spaces ws t :
  Fmt.all_chars is_space ws = true -> fromhex (ws ++ t) = fromhex t.
Proof.
  induction ws as [|c ws IH]; cbn [Fmt.all_chars append]; [reflexivity |].
  intros H. apply andb_true_iff in H. destruct H as [Hc Hws].
  cbn [fromhex]. rewrite Hc. auto.
Qed.

Lemma strip_0x_spaces ws t :
  ws <> "" -> Fmt.all_chars is_space ws = true ->
  strip_0x (ws ++ t) = (ws ++ t)%string.
Proof.
  intros Hne H. destruct ws as [|c ws]; [congruence |].
  cbn [Fmt.all_chars] in H. apply andb_true_iff in H. destruct H as [Hc _].
  assert (Hc0 : c <> "0"%char) by (intros ->; discriminate).
  apply strip_0x_other. cbn [append String.prefix].
  destruct (ascii_dec "0" c); [congruence | reflexivity].
Qed.

(** X3: the prefix is taken off once, at the very front and in lowercase
    only: a text with the prefix twice, with ["0X"], or with any whitespace
    (one character or more) before the prefix makes [bytes.fromhex]
    fail. *)
Theorem parse_code_rejects r :
  parse_code ("0x0x" ++ r) = None /\
  parse_code ("0X" ++ r) = None /\
  (forall ws, ws <> "" -> Fmt.all_chars is_space ws = true ->
              parse_code (ws ++ "0x" ++ r) = None).
Proof.
  split; [| split].
  - unfold parse_code.
    change ("0x0x" ++ r)%string with ("0x" ++ ("0x" ++ r))%string.
    rewrite strip_0x_prefixed. reflexivity.
  - unfold parse_code. rewrite strip_0x_other by reflexivity. reflexivity.
  - intros ws Hne Hws. unfold parse_code.
    rewrite strip_0x_spaces, fromhex_spaces by assumption. reflexivity.
Qed.

(** X4: on the hexadecimal text of a buffer, given as the option or read
    from a file that ends with a newline, with the ["0x"] or without,
    [main] prints the lines of the listing of that buffer, each followed by
    a newline; the text of an existing file is used, whatever the option
    holds. *)
Theorem main_prints_listing bs arg :
  exists lines,
    disassemble bs = Some lines /\
    let printed := (String.concat newline lines ++ newline)%string in
    main NoFile (Fmt.bytes_hex bs) = Some printed /\
    main NoFile ("0x" ++ Fmt.bytes_hex bs) = Some printed /\
    main (FileText (Fmt.bytes_hex bs ++ newline)) arg = Some printed /\
    main (FileText ("0x" ++ Fmt.bytes_hex bs ++ newline)) arg = Some printed.
Proof.
  destruct (disassemble_lines_total bs) as [ls Hls].
  exists (map render_line ls).
  assert (Hd : disassemble bs = Some (map render_line ls))
    by (unfold disassemble; now rewrite Hls).
  split; [exact Hd |]. cbn zeta. unfold main.
  rewrite <- (append_empty_r (Fmt.bytes_hex bs)) at 1 2.
  rewrite !parse_code_plain, !parse_code_prefixed by reflexivity.
  rewrite Hd. repeat split.
Qed.


(** ** The bytes behind the lines *)

Lemma push_opcode_width insn :
  is_push insn = true -> push_opcode (push_width insn) = opcode insn.
Proof.
  unfold is_push, push_opcode, push_width. intros H.
  apply andb_true_iff in H. destruct H as [H _]. apply Nat.leb_le in H.
  replace (Byte.to_nat PUSH1 + (Byte.to_nat (opcode insn) - Byte.to_nat PUSH1 + 1) - 1)
    with (Byte.to_nat (opcode insn)) by lia.
  now rewrite Byte.of_to_nat.
Qed.

Lemma describes_bytes code l :
  describes code l ->
  line_bytes l = slice code (line_offset l) (line_offset l + line_size l).
Proof.
  destruct l as [p insn|p w pd|d]; cbn [describes line_bytes line_offset line_size].
  - intros (Hp & -> & Hfit & _).
    rewrite insn_at_operand in *.
    change (opcode (insn_at code p) :: push_data_at code p)
      with ([opcode (insn_at code p)] ++ push_data_at code p).
    rewrite decoded_bytes by assumption. f_equal.
    rewrite next_pc_eq. lia.
  - intros (Hp & Hpush & -> & -> & Hover).
    rewrite push_opcode_width by assumption. rewrite insn_at_opcode.
    rewrite slice_cons by (rewrite ?length_skipn; lia).
    f_equal. rewrite slice_to_end; [reflexivity |].
    rewrite length_skipn. lia.
  - intros [_ H]. exact H.
Qed.

Lemma tiles_bytes code p ls q :
  tiles code p ls q -> List.concat (map line_bytes ls) = slice code p q.
Proof.
  induction 1 as [p|p l ls q Ho Hd Ht IH]; cbn [map List.concat].
  - now rewrite slice_empty.
  - rewrite IH, (describes_bytes code l Hd), Ho.
    apply slice_app; [lia | eapply tiles_le; eassumption].
Qed.

Lemma tiles_count code p ls q : tiles code p ls q -> p + List.length ls <= q.
Proof.
  induction 1 as [p|p l ls q Ho Hd Ht IH]; cbn [List.length]; [lia |].
  pose proof (describes_size_pos code l Hd). lia.
Qed.

Lemma slice_whole code : slice code 0 (List.length code) = code.
Proof. unfold slice. rewrite Nat.sub_0_r. cbn [skipn]. apply firstn_all. Qed.

Lemma listing_bytes code ls :
  disassemble_lines code = Some ls -> List.concat (map line_bytes ls) = code.
Proof.
  intros H. rewrite (tiles_bytes code 0 ls (List.length code)) by now apply final_tiles.
  apply slice_whole.
Qed.

(** *** From the text of a line to its bytes *)

Lemma append_inj_l (a b c : string) : (a ++ b)%string = (a ++ c)%string -> b = c.
Proof. induction a as [|x a IH]; cbn [append]; [auto | intros [= H]; auto]. Qed.

Lemma without_cons sep c s :
  without sep (String c s) = true -> c <> sep /\ without sep s = true.
Proof.
  unfold without. cbn [Fmt.all_chars]. intros H.
  apply andb_true_iff in H. destruct H as [Hc Hs]. split; [| exact Hs].
  intros ->. now rewrite Ascii.eqb_refl in Hc.
Qed.

Lemma split_unique sep s1 :
  forall t1 s2 t2,
    without sep s1 = true -> without sep s2 = true ->
    (s1 ++ String sep t1)%string = (s2 ++ String sep t2)%string ->
    s1 = s2 /\ t1 = t2.
Proof.
  induction s1 as [|c s1 IH]; intros t1 [|c2 s2] t2 H1 H2 E; cbn [append] in E.
  - injection E as ->. auto.
  - injection E as <- _. apply without_cons in H2. destruct H2 as [H2 _]. congruence.
  - injection E as -> _. apply without_cons in H1. destruct H1 as [H1 _]. congruence.
  - injection E as <- E. apply without_cons in H1, H2.
    destruct (IH t1 s2 t2 (proj2 H1) (proj2 H2) E) as [-> ->]. auto.
Qed.

Lemma with_sep sep a b : without sep (a ++ String sep b) = false.
Proof.
  unfold without. induction a as [|c a IH]; cbn [append Fmt.all_chars].
  - now rewrite Ascii.eqb_refl.
  - rewrite IH. apply andb_false_r.
Qed.

Lemma without_append sep a b :
  without sep (a ++ b) = without sep a && without sep b.
Proof. apply all_chars_append. Qed.

Lemma hex_without sep s :
  Fmt.is_hex_lower sep = false -> Fmt.all_chars Fmt.is_hex_lower s = true ->
  without sep s = true.
Proof.
  intros Hsep. unfold without.
  induction s as [|c s IH]; cbn [Fmt.all_chars]; [reflexivity |].
  intros H. apply andb_true_iff in H. destruct H as [Hc Hs].
  rewrite IH by assumption. rewrite andb_true_r. apply negb_true_iff.
  destruct (Ascii.eqb_spec c sep) as [->|]; [congruence | reflexivity].
Qed.

Lemma bytes_hex_all_hex bs :
  Fmt.all_chars Fmt.is_hex_lower (Fmt.bytes_hex bs) = true.
Proof.
  induction bs as [|b bs IH]; [reflexivity |].
  cbn [Fmt.bytes_hex]. rewrite all_chars_append, IH.
  unfold Fmt.byte_hex. cbn [Fmt.all_chars]. now rewrite !hex_digit_is_hex.
Qed.

Lemma bytes_hex_inj a b : Fmt.bytes_hex a = Fmt.bytes_hex b -> a = b.
Proof.
  intros E. pose proof (fromhex_bytes_hex a "") as Ha.
  rewrite E, fromhex_bytes_hex in Ha. cbn in Ha.
  rewrite !app_nil_r in Ha. now injection Ha.
Qed.

Lemma dec_no_space w : without " " (Fmt.dec w) = true.
Proof.
  unfold Fmt.dec. generalize (Nat.to_uint w). intros d.
  induction d; cbn; auto.
Qed.

Lemma dec_inj a b : Fmt.dec a = Fmt.dec b -> a = b.
Proof.
  unfold Fmt.dec. intros E.
  apply (f_equal NilEmpty.uint_of_string) in E. rewrite !NilEmpty.usu in E.
  injection E as E. apply (f_equal Nat.of_uint) in E.
  now rewrite !Unsigned.of_to in E.
Qed.

Lemma shaped_inj head1 h1 b1 head2 h2 b2 :
  without " " head1 = true -> without " " head2 = true ->
  without " " h1 = true -> without " " h2 = true ->
  (head1 ++ " 0x" ++ h1 ++ trunc_tail b1)%string
  = (head2 ++ " 0x" ++ h2 ++ trunc_tail b2)%string ->
  head1 = head2 /\ h1 = h2 /\ b1 = b2.
Proof.
  intros Hd1 Hd2 Hh1 Hh2 E.
  change (" 0x" ++ h1 ++ trunc_tail b1)%string
    with (String " " ("0x" ++ h1 ++ trunc_tail b1)) in E.
  change (" 0x" ++ h2 ++ trunc_tail b2)%string
    with (String " " ("0x" ++ h2 ++ trunc_tail b2)) in E.
  apply split_unique in E; try assumption. destruct E as [-> E].
  apply append_inj_l in E. split; [reflexivity |].
  destruct b1, b2; cbn [trunc_tail] in E.
  - change " # truncated" with (String " " "# truncated") in E.
    apply split_unique in E; try assumption. destruct E as [-> _]. auto.
  - rewrite append_empty_r in E. rewrite <- E in Hh2.
    change " # truncated" with (String " " "# truncated") in Hh2.
    rewrite with_sep in Hh2. discriminate.
  - rewrite append_empty_r in E. rewrite E in Hh1.
    change " # truncated" with (String " " "# truncated") in Hh1.
    rewrite with_sep in Hh1. discriminate.
  - rewrite !append_empty_r in E. auto.
Qed.

Lemma bytes_hex_no_space bs : without " " (Fmt.bytes_hex bs) = true.
Proof. apply hex_without; [reflexivity | apply bytes_hex_all_hex]. Qed.

Lemma plain_not_shaped op head rest :
  legible -> mnemonic op <> (head ++ " 0x" ++ rest)%string.
Proof.
  intros (_ & Hsp & _) E. pose proof (Hsp op) as H. rewrite E in H.
  change (" 0x" ++ rest)%string with (String " " ("0x" ++ rest)) in H.
  rewrite with_sep in H. discriminate.
Qed.

Lemma text_of_bytes f1 f2 :
  legible -> text_of f1 = text_of f2 -> bytes_of f1 = bytes_of f2.
Proof.
  intros Hleg E. pose proof Hleg as (Hinj & Hsp & Hdata).
  assert (Hpush : forall w, without " " ("PUSH" ++ Fmt.dec w) = true)
    by (intros w; rewrite without_append, dec_no_space; reflexivity).
  destruct f1 as [op1|op1 o1|w1 p1|d1], f2 as [op2|op2 o2|w2 p2|d2];
    cbn [text_of bytes_of] in *;
    try (exfalso; eapply plain_not_shaped; [exact Hleg | exact E]);
    try (exfalso; eapply plain_not_shaped; [exact Hleg | symmetry; exact E]);
    try (apply shaped_inj in E;
         [| now auto using bytes_hex_no_space ..];
         destruct E as (Eh & Eb & Et); try discriminate).
  - now rewrite (Hinj _ _ E).
  - apply Hinj in Eh. apply bytes_hex_inj in Eb. congruence.
  - exfalso. now apply (Hdata op1).
  - apply append_inj_l, dec_inj in Eh. apply bytes_hex_inj in Eb. congruence.
  - exfalso. now apply (Hdata op2).
  - now apply bytes_hex_inj in Eb.
Qed.

Lemma describes_form code l :
  describes code l ->
  exists f, line_body l = text_of f /\ line_bytes l = bytes_of f.
Proof.
  destruct l as [p insn|p w pd|d]; cbn [describes line_body line_bytes].
  - intros (_ & -> & _ & _). unfold Instruction_str.
    destruct (is_push (insn_at code p)) eqn:Ep.
    + exists (Full (opcode (insn_at code p)) (operand (insn_at code p))).
      cbn [text_of bytes_of trunc_tail]. now rewrite append_empty_r.
    + exists (Plain (opcode (insn_at code p))). cbn [text_of bytes_of].
      split; [reflexivity |]. rewrite insn_at_operand. unfold push_data_at.
      now rewrite Ep.
  - intros _. exists (Cut w pd). cbn [text_of bytes_of trunc_tail].
    split; [| reflexivity]. now rewrite append_assoc.
  - intros [Hne _]. exists (Region (data d)). cbn [text_of bytes_of trunc_tail].
    rewrite data_payload by exact Hne. now rewrite append_empty_r.
Qed.

Lemma render_line_body l :
  render_line l
  = (Fmt.format_x 4 (N.of_nat (line_offset l)) ++ String ":" (String " " (line_body l)))%string.
Proof. destruct l; reflexivity. Qed.

Lemma render_line_bytes c1 c2 l1 l2 :
  legible -> describes c1 l1 -> describes c2 l2 ->
  render_line l1 = render_line l2 -> line_bytes l1 = line_bytes l2.
Proof.
  intros Hleg H1 H2 E. rewrite !render_line_body in E.
  apply split_unique in E;
    try (apply hex_without; [reflexivity | apply format_x_all_hex]).
  destruct E as [_ E]. injection E as E.
  destruct (describes_form c1 l1 H1) as (f1 & Ht1 & ->).
  destruct (describes_form c2 l2 H2) as (f2 & Ht2 & ->).
  apply text_of_bytes; [exact Hleg | congruence].
Qed.

Lemma render_lines_bytes c1 c2 ls1 :
  forall ls2,
    legible ->
    (forall l, In l ls1 -> describes c1 l) ->
    (forall l, In l ls2 -> describes c2 l) ->
    map render_line ls1 = map render_line ls2 ->
    map line_bytes ls1 = map line_bytes ls2.
Proof.
  induction ls1 as [|l1 ls1 IH]; intros [|l2 ls2] Hleg H1 H2 E;
    cbn [map] in *; try discriminate; [reflexivity |].
  injection E as E E'. f_equal.
  - apply (render_line_bytes c1 c2); auto; [apply H1 | apply H2]; now left.
  - apply IH; auto; intros l Hl; [apply H1 | apply H2]; now right.
Qed.

Lemma listing_text_bytes c1 c2 :
  legible -> disassemble c1 = disassemble c2 -> c1 = c2.
Proof.
  intros Hleg E. unfold disassemble in E.
  destruct (disassemble_lines_total c1) as [ls1 H1].
  destruct (disassemble_lines_total c2) as [ls2 H2].
  rewrite H1, H2 in E. cbn [option_map] in E. injection E as E.
  rewrite <- (listing_bytes c1 ls1 H1), <- (listing_bytes c2 ls2 H2).
  f_equal. apply (render_lines_bytes c1 c2); auto;
    intros l Hl; eapply tiles_In; eauto using final_tiles.
Qed.

(** X6: the buffer can be rebuilt from the listing.  The bytes the lines
    were formatted from, put end to end, are the buffer, so no byte is
    lost or shown twice.  With a table of mnemonics that can be read back
    (no two opcodes share a mnemonic, no mnemonic has a space or is the
    word DATA) the text is enough: two buffers with the same text lines are
    the same buffer. *)
Theorem listing_rebuilds_buffer code ls :
  disassemble_lines code = Some ls ->
  List.concat (map line_bytes ls) = code /\
  fold_right (fun l n => line_size l + n) 0 ls = List.length code /\
  (legible -> forall code', disassemble code' = disassemble code -> code' = code).
Proof.
  intros H. split; [now apply listing_bytes |]. split.
  - pose proof (final_tiles code ls H) as Ht.
    assert (G : forall p ls q, tiles code p ls q ->
                  p + fold_right (fun l n => line_size l + n) 0 ls = q).
    { clear. induction 1 as [p|p l ls q Ho Hd Ht IH]; cbn [fold_right]; lia. }
    apply (G 0 ls _ Ht).
  - intros Hleg code' E. now apply listing_text_bytes.
Qed.

Lemma push_data_short code p :
  p < List.length code -> is_push (insn_at code p) = true ->
  (List.length (push_data_at code p) <? push_width (insn_at code p))
  = (List.length code <? p + 1 + push_width (insn_at code p)).
Proof.
  intros Hp Ep. unfold push_data_at. rewrite Ep, slice_length.
  destruct (Nat.ltb_spec (Nat.min (p + 1 + push_width (insn_at code p) - (p + 1))
                            (List.length code - (p + 1)))
              (push_width (insn_at code p)));
    destruct (Nat.ltb_spec (List.length code) (p + 1 + push_width (insn_at code p)));
    lia.
Qed.

Lemma push_data_cut code p :
  is_push (insn_at code p) = true ->
  List.length code < p + 1 + push_width (insn_at code p) ->
  push_data_at code p = skipn (p + 1) code.
Proof.
  intros Ep H. unfold push_data_at. rewrite Ep. apply slice_to_end. lia.
Qed.

Lemma first_line code ls :
  code <> [] -> disassemble_lines code = Some ls ->
  exists rest,
    ls = (if is_push (insn_at code 0)
             && (List.length (push_data_at code 0) <? push_width (insn_at code 0))
          then TruncatedLine 0 (push_width (insn_at code 0)) (push_data_at code 0)
          else InsnLine 0 (insn_at code 0)) :: rest.
Proof.
  intros Hne Hls.
  assert (Hlen : pc initial < List.length code)
    by (destruct code; [congruence | simpl; lia]).
  assert (Hr : reachable code (loop_body code initial))
    by (constructor; [constructor | assumption]).
  destruct (reachable_lines _ _ _ Hr Hls) as (fin & Hrun & ->).
  destruct (run_output _ _ _ Hrun) as [rest ->].
  rewrite loop_body_code by reflexivity. cbn [output pc initial finish data_section app].
  eauto.
Qed.

(** X7: a listing has at most as many lines as the buffer has bytes; it is
    empty for the empty buffer only; otherwise its first line is the
    instruction at offset 0, a truncated push when the buffer ends inside
    its operand. *)
Theorem listing_size code ls :
  disassemble_lines code = Some ls ->
  List.length ls <= List.length code /\
  (ls = [] <-> code = []) /\
  (code <> [] ->
   exists rest,
     ls = (if is_push (insn_at code 0)
              && (List.length code <? 1 + push_width (insn_at code 0))
           then TruncatedLine 0 (push_width (insn_at code 0)) (skipn 1 code)
           else InsnLine 0 (insn_at code 0)) :: rest).
Proof.
  intros Hls. pose proof (final_tiles code ls Hls) as Ht.
  split; [apply (tiles_count _ _ _ _ Ht) |]. split.
  - split.
    + intros ->. inversion Ht as [p E1 E2|]. destruct code; [reflexivity | discriminate].
    + intros ->. cbv in Hls. now injection Hls as <-.
  - intros Hne. destruct (first_line code ls Hne Hls) as [rest ->].
    exists rest. f_equal.
    assert (Hp : 0 < List.length code) by (destruct code; [congruence | simpl; lia]).
    destruct (is_push (insn_at code 0)) eqn:Ep; cbn [andb]; [| reflexivity].
    rewrite (push_data_short code 0 Hp Ep). cbn [Nat.add].
    destruct (Nat.ltb_spec (List.length code) (S (push_width (insn_at code 0))));
      [| reflexivity].
    now rewrite (push_data_cut code 0 Ep) by (cbn [Nat.add]; assumption).
Qed.

(** X8: what the loop has appended is never changed: at every iteration
    the lines already in [output] are the first lines of the listing, and
    there are no more of them than bytes read. *)
Theorem output_is_final code st ls :
  reachable code st -> disassemble_lines code = Some ls ->
  (exists rest, ls = output st ++ rest) /\
  List.length (output st) <= pc st.
Proof.
  intros Hr Hls. split.
  - destruct (reachable_lines _ _ _ Hr Hls) as (fin & Hrun & ->).
    eapply run_output; eassumption.
  - pose proof (tiles_count _ _ _ _ (reachable_tiles code st Hr)) as H.
    unfold pending_from in H.
    destruct (data_section st) as [d|] eqn:E; [| lia].
    destruct (reachable_data code st d Hr E) as (_ & _ & Hs & _). lia.
Qed.

(** X9: [DataSection.render] on any section, the empty one too: the
    payload reads back as the big-endian integer of the data; it has two
    digits for each byte, and is the single digit 0 when there is no
    byte. *)
Theorem render_any_section d :
  exists payload,
    DataSection_render d
    = (Fmt.format_x 4 (N.of_nat (start_pc d)) ++ ": DATA 0x" ++ payload)%string /\
    Fmt.hex_value payload = Fmt.int_from_bytes (data d) /\
    String.length payload = Nat.max 1 (2 * List.length (data d)) /\
    (data d = [] -> payload = "0") /\
    (data d <> [] -> payload = Fmt.bytes_hex (data d)).
Proof.
  exists (Fmt.format_x (List.length (data d) * 2) (Fmt.int_from_bytes (data d))).
  split; [reflexivity |]. split; [apply format_x_value |].
  destruct (data d) as [|b bs] eqn:E.
  - repeat split; congruence.
  - rewrite data_payload by discriminate. rewrite bytes_hex_length.
    cbn [List.length]. repeat split; try lia; congruence.
Qed.

(** ** Instruction boundaries and jump destinations *)

Lemma reachable_boundary code st :
  reachable code st -> boundary code (pc st) /\ boundary code (pending_from st).
Proof.
  induction 1 as [|st Hr [IHpc IHpend] Hlt]; [split; constructor |].
  rewrite loop_body_pc. split; [now constructor |].
  destruct (reading_code st || Byte.eqb (opcode (insn_at code (pc st))) JUMPDEST) eqn:E.
  - rewrite (loop_body_code _ _ E). unfold pending_from. cbn [data_section pc].
    now constructor.
  - rewrite (loop_body_data _ _ Hlt E). unfold pending_from in *.
    cbn [data_section start_pc]. destruct (data_section st); assumption.
Qed.

Lemma boundary_reachable code p :
  boundary code p -> p < List.length code ->
  exists st, reachable code st /\ pc st = p.
Proof.
  induction 1 as [|p Hb IH Hp]; intros Hlt.
  - exists initial. split; [constructor | reflexivity].
  - destruct (IH Hp) as (st & Hr & <-).
    exists (loop_body code st). split; [now constructor | apply loop_body_pc].
Qed.

Lemma tiles_boundaries code p ls q l :
  tiles code p ls q -> boundary code p -> boundary code q -> In l ls ->
  (forall l', In l' ls -> boundary code (line_offset l')) ->
  boundary code (line_offset l + line_size l).
Proof.
  induction 1 as [p|p l' ls q Ho Hd Ht IH]; intros Hp Hq Hin Hall; [contradiction |].
  assert (Hnext : boundary code (p + line_size l')).
  { inversion Ht as [p' E1 E2|p' l'' ls' q' Ho' _ _]; subst.
    - assumption.
    - rewrite <- Ho'. apply Hall. right. now left. }
  destruct Hin as [<-|Hin].
  - now rewrite Ho.
  - apply IH; auto. intros l'' Hin'. apply Hall. now right.
Qed.

Lemma output_boundaries code st l :
  reachable code st -> In l (finish st) -> boundary code (line_offset l).
Proof.
  intros Hr. revert l. induction Hr as [|st Hr IH Hlt]; intros l Hin;
    [contradiction |].
  destruct (reachable_boundary code st Hr) as [Hpc Hpend].
  destruct (reading_code st || Byte.eqb (opcode (insn_at code (pc st))) JUMPDEST) eqn:E.
  - rewrite (loop_body_code _ _ E) in Hin. unfold finish at 1 in Hin.
    cbn [data_section output] in Hin. apply in_app_or in Hin.
    destruct Hin as [Hin|[<-|[]]]; [now apply IH |].
    destruct (_ && _); exact Hpc.
  - rewrite (loop_body_data _ _ Hlt E) in Hin. unfold finish in Hin, IH.
    cbn [data_section output] in Hin. apply in_app_or in Hin.
    destruct Hin as [Hin|[<-|[]]].
    + apply IH. destruct (data_section st); [apply in_or_app; now left | assumption].
    + cbn [line_offset start_pc]. exact Hpend.
Qed.

(** X10: the cursor does not depend on the mode: in code and in data the
    loop goes through the same offsets, those of the buffer read one
    instruction after the other from offset 0, and only those.  Every line
    of the listing begins at such an offset and ends at one. *)
Theorem lines_at_boundaries code :
  (forall st, reachable code st -> boundary code (pc st)) /\
  (forall p, boundary code p -> p < List.length code ->
             exists st, reachable code st /\ pc st = p) /\
  (forall ls l, disassemble_lines code = Some ls -> In l ls ->
                boundary code (line_offset l) /\
                boundary code (line_offset l + line_size l)).
Proof.
  split; [intros st Hr; apply (reachable_boundary code st Hr) |].
  split; [apply boundary_reachable |].
  intros ls l Hls Hin.
  destruct (disassemble_lines_final code ls Hls) as (fin & Hr & Hpc & ->).
  assert (Hall : forall l', In l' (finish fin) -> boundary code (line_offset l'))
    by (intros l'; now apply output_boundaries).
  split; [now apply Hall |].
  pose proof (finish_tiles code fin Hr (reachable_tiles code fin Hr)) as Ht.
  eapply tiles_boundaries; eauto; [constructor | apply (reachable_boundary code fin Hr)].
Qed.

Lemma line_of_code_mode code st ls :
  reachable code st -> pc st < List.length code ->
  reading_code st || Byte.eqb (opcode (insn_at code (pc st))) JUMPDEST = true ->
  is_push (insn_at code (pc st)) = false ->
  disassemble_lines code = Some ls ->
  In (InsnLine (pc st) (insn_at code (pc st))) ls.
Proof.
  intros Hr Hlt E Hpush Hls.
  assert (Hr' : reachable code (loop_body code st)) by (constructor; assumption).
  destruct (reachable_lines _ _ _ Hr' Hls) as (fin & Hrun & ->).
  destruct (run_output _ _ _ Hrun) as [rest ->].
  rewrite (loop_body_code _ _ E). cbn [output]. rewrite Hpush. cbn [andb].
  apply in_or_app. left. apply in_or_app. right. now left.
Qed.

(** X11: no JUMPDEST hides in the data: a JUMPDEST byte that is not the
    operand of a push, when the buffer is read one instruction after the
    other from offset 0, has its own instruction line in the listing,
    whatever precedes it; and a JUMPDEST line of the listing is always at
    such a byte. *)
Theorem jumpdest_always_listed code ls p :
  disassemble_lines code = Some ls ->
  (boundary code p /\ p < List.length code /\ nth p code STOP = JUMPDEST) <->
  (exists insn, In (InsnLine p insn) ls /\ opcode insn = JUMPDEST).
Proof.
  intros Hls. split.
  - intros (Hb & Hlt & Hj).
    destruct (boundary_reachable code p Hb Hlt) as (st & Hr & <-).
    assert (Hop : opcode (insn_at code (pc st)) = JUMPDEST) by exact Hj.
    exists (insn_at code (pc st)). split; [| exact Hop].
    apply line_of_code_mode; auto.
    + rewrite Hop, orb_true_r. reflexivity.
    + apply jumpdest_not_push. rewrite Hop. reflexivity.
  - intros (insn & Hin & Hop).
    destruct (disassemble_lines_final code ls Hls) as (fin & Hr & _ & ->).
    pose proof (output_boundaries code fin _ Hr Hin) as Hb.
    pose proof (finish_tiles code fin Hr (reachable_tiles code fin Hr)) as Ht.
    destruct (tiles_In _ _ _ _ _ Ht Hin) as (Hlt & -> & _).
    repeat split; auto.
Qed.

(** X12: without a terminating opcode there is no data: when no byte of
    the buffer is a JUMP, STOP, REVERT, RETURN or INVALID opcode, every
    line of the listing is an instruction line. *)
Theorem no_terminator_no_data code ls :
  (forall b, In b code -> in_TERMINATING b = false) ->
  disassemble_lines code = Some ls ->
  forall l, In l ls -> forall d, l <> DataLine d.
Proof.
  intros Hno Hls l Hin d ->.
  destruct (disassemble_lines_final code ls Hls) as (fin & Hr & _ & ->).
  apply in_split in Hin. destruct Hin as (l1 & l2 & E).
  destruct (finish_data_follows code fin Hr (reachable_data_follows code fin Hr)
              l1 d l2 E) as (l0 & p & insn & -> & Hterm).
  pose proof (finish_tiles code fin Hr (reachable_tiles code fin Hr)) as Ht.
  assert (Hin : In (InsnLine p insn) (finish fin)).
  { rewrite E. apply in_or_app. left. apply in_or_app. right. now left. }
  destruct (tiles_In _ _ _ _ _ Ht Hin) as (Hlt & -> & _).
  rewrite insn_at_opcode in Hterm.
  rewrite Hno in Hterm by (now apply nth_In). discriminate.
Qed.

(** ** The listing of two buffers put end to end *)

Lemma loop_body_body_of code st :
  loop_body code st = body_of (decode_opcode code (pc st)) st.
Proof.
  unfold loop_body, body_of.
  pose proof (insn_at_operand code (pc st)) as Hop.
  unfold push_data_at, insn_at in Hop.
  destruct (decode_opcode code (pc st)) as [insn next]. cbn [fst] in Hop.
  rewrite <- Hop. unfold finish.
  destruct (reading_code st || Byte.eqb (opcode insn) JUMPDEST); [reflexivity |].
  destruct (data_section st); reflexivity.
Qed.

Lemma slice_app_l a b p q :
  q <= List.length a -> slice (a ++ b) p q = slice a p q.
Proof.
  intros H. unfold slice. rewrite skipn_app, firstn_app, length_skipn.
  replace (q - p - (List.length a - p)) with 0 by lia.
  cbn [firstn]. apply app_nil_r.
Qed.

Lemma slice_app_r a b p q :
  slice (a ++ b) (List.length a + p) (List.length a + q) = slice b p q.
Proof.
  unfold slice. rewrite skipn_app.
  rewrite skipn_all2 by lia. cbn [app].
  f_equal; [lia | f_equal; lia].
Qed.

Lemma decode_app_fit a b p :
  p < List.length a ->
  (is_push (insn_at a p) = true ->
   p + 1 + push_width (insn_at a p) <= List.length a) ->
  decode_opcode (a ++ b) p = decode_opcode a p.
Proof.
  intros Hp Hfit. unfold decode_opcode.
  rewrite app_nth1 by assumption.
  unfold insn_at, decode_opcode in Hfit. cbn [fst] in Hfit.
  unfold is_push, push_width in *. cbn [opcode] in *.
  rewrite length_app.
  destruct (_ && _).
  - specialize (Hfit eq_refl). rewrite slice_app_l by lia.
    f_equal. lia.
  - rewrite slice_app_l by lia. f_equal. lia.
Qed.

Lemma decode_app_shift a b p :
  decode_opcode (a ++ b) (List.length a + p)
  = (insn_at b p, List.length a + next_pc b p).
Proof.
  unfold insn_at, next_pc, decode_opcode. cbn [fst snd].
  rewrite app_nth2_plus, length_app.
  set (w := if is_push _ then _ else 0).
  replace (List.length a + p + 1) with (List.length a + (p + 1)) by lia.
  replace (List.length a + (p + 1) + w) with (List.length a + (p + 1 + w)) by lia.
  rewrite slice_app_r. f_equal. lia.
Qed.

Lemma not_ends_in_code ls l :
  (forall pc insn, l = InsnLine pc insn -> in_TERMINATING (opcode insn) = true) ->
  ~ ends_in_code (ls ++ [l]).
Proof.
  intros Hl [E|(l0 & p & insn & E & Hterm)].
  - apply app_eq_nil in E. destruct E; discriminate.
  - apply app_inj_tail in E. destruct E as [_ E].
    rewrite (Hl p insn E) in Hterm. discriminate.
Qed.

Lemma ends_in_code_fits a la st :
  disassemble_lines a = Some la -> ends_in_code la ->
  reachable a st -> pc st < List.length a ->
  is_push (insn_at a (pc st)) = true ->
  pc st + 1 + push_width (insn_at a (pc st)) <= List.length a.
Proof.
  intros Hla Hend Hr Hlt Hpush.
  destruct (Nat.le_gt_cases (pc st + 1 + push_width (insn_at a (pc st))) (List.length a))
    as [|Hover]; [assumption | exfalso].
  assert (Hr' : reachable a (loop_body a st)) by (constructor; assumption).
  destruct (reachable_lines _ _ _ Hr' Hla) as (fin & Hrun & ->).
  rewrite run_done in Hrun.
  2:{ rewrite loop_body_pc, next_pc_eq, (push_data_cut a (pc st) Hpush Hover).
      rewrite length_skipn. lia. }
  injection Hrun as <-. revert Hend.
  destruct (reading_code st || Byte.eqb (opcode (insn_at a (pc st))) JUMPDEST) eqn:E.
  - rewrite (loop_body_code _ _ E). unfold finish at 1. cbn [data_section output].
    rewrite Hpush, (push_data_short a (pc st) Hlt Hpush). cbn [andb].
    destruct (Nat.ltb_spec (List.length a) (pc st + 1 + push_width (insn_at a (pc st))));
      [| lia].
    apply not_ends_in_code. discriminate.
  - rewrite (loop_body_data _ _ Hlt E). unfold finish. cbn [data_section output].
    apply not_ends_in_code. discriminate.
Qed.

Lemma ends_in_code_reachable a b la st :
  disassemble_lines a = Some la -> ends_in_code la ->
  reachable a st -> reachable (a ++ b) st.
Proof.
  intros Hla Hend. induction 1 as [|st Hr IH Hlt]; [constructor |].
  rewrite loop_body_body_of, <- (decode_app_fit a b (pc st) Hlt).
  - rewrite <- loop_body_body_of. constructor; [assumption |].
    rewrite length_app. lia.
  - now apply (ends_in_code_fits a la).
Qed.

Lemma ends_in_code_final a la fin :
  ends_in_code la -> reachable a fin -> la = finish fin ->
  data_section fin = None /\ reading_code fin = true /\ la = output fin.
Proof.
  intros Hend Hr ->. unfold finish in *.
  destruct (data_section fin) as [d|] eqn:E.
  - exfalso. revert Hend. apply not_ends_in_code. discriminate.
  - repeat split. destruct (reading_code fin) eqn:Em; [reflexivity | exfalso].
    destruct (reachable_after_terminator a fin Hr Em) as (l0 & p & insn & E' & Ht).
    rewrite E' in Hend. revert Hend. apply not_ends_in_code.
    intros p' insn' [= _ <-]. exact Ht.
Qed.

Lemma finish_shift n before st :
  finish (shift_state n before st) = before ++ map (shift_line n) (finish st).
Proof.
  unfold finish, shift_state. cbn [data_section output].
  destruct (data_section st); cbn [option_map]; [| reflexivity].
  now rewrite map_app, app_assoc.
Qed.

Lemma body_of_shift n before insn next st :
  body_of (insn, n + next) (shift_state n before st)
  = shift_state n before (body_of (insn, next) st).
Proof.
  unfold body_of. rewrite finish_shift.
  change (reading_code (shift_state n before st)) with (reading_code st).
  change (pc (shift_state n before st)) with (n + pc st).
  destruct (reading_code st || Byte.eqb (opcode insn) JUMPDEST).
  - unfold shift_state at 1. cbn [pc reading_code data_section output option_map].
    f_equal. rewrite map_app, app_assoc. f_equal.
    destruct (_ && _); reflexivity.
  - unfold shift_state. cbn [pc reading_code data_section output option_map].
    f_equal. destruct (data_section st); reflexivity.
Qed.

Lemma run_shift a b before st :
  run (a ++ b) (shift_state (List.length a) before st)
  = option_map (shift_state (List.length a) before) (run b st).
Proof.
  induction st as [st H|st H IH] using (left_to_read_ind b).
  - rewrite !run_done; [reflexivity | assumption |].
    cbn [pc shift_state]. rewrite length_app. lia.
  - rewrite (run_step b st H), <- IH.
    rewrite run_step by (cbn [pc shift_state]; rewrite length_app; lia).
    f_equal. rewrite !loop_body_body_of.
    change (pc (shift_state (List.length a) before st)) with (List.length a + pc st).
    rewrite decode_app_shift, body_of_shift.
    unfold insn_at, next_pc. now rewrite <- surjective_pairing.
Qed.

(** X13: buffers compose: when the listing of [a] leaves the pass in code
    mode with nothing cut short (it is empty, or ends with an instruction
    that does not terminate), the listing of [a ++ b] is the listing of [a]
    followed by the listing of [b] with its offsets moved by the length of
    [a]. *)
Theorem disassemble_app a b la lb :
  disassemble_lines a = Some la -> ends_in_code la ->
  disassemble_lines b = Some lb ->
  disassemble_lines (a ++ b) = Some (la ++ map (shift_line (List.length a)) lb).
Proof.
  intros Hla Hend Hlb.
  destruct (disassemble_lines_final a la Hla) as (fin & Hr & Hpc & Efin).
  destruct (ends_in_code_final a la fin Hend Hr Efin) as (Hd & Hm & Eout).
  pose proof (reachable_pc a fin Hr) as Hle.
  assert (Hshift : fin = shift_state (List.length a) la initial).
  { destruct fin as [p m d o]. cbn in *. subst.
    unfold shift_state. cbn. rewrite app_nil_r. f_equal. lia. }
  rewrite disassemble_lines_run in Hlb |- *.
  rewrite <- (reachable_run (a ++ b) fin)
    by (eapply ends_in_code_reachable; eassumption).
  rewrite Hshift, run_shift.
  destruct (run b initial) as [finb|]; [| discriminate].
  cbn [option_map] in *. injection Hlb as <-. now rewrite finish_shift.
Qed.

(** ** Where a data region ends *)

Lemma data_end_skip code p :
  p < List.length code -> Byte.eqb (nth p code STOP) JUMPDEST = false ->
  data_end code p = data_end code (next_pc code p).
Proof.
  intros Hp Hj. rewrite (data_end_unfold code p), Hj.
  destruct (Nat.ltb_spec p (List.length code)); [reflexivity | lia].
Qed.

Lemma data_end_here code p :
  Byte.eqb (nth p code STOP) JUMPDEST = true \/ List.length code <= p ->
  p <= List.length code -> data_end code p = p.
Proof.
  intros H Hp. rewrite data_end_unfold.
  destruct (Nat.ltb_spec p (List.length code)); [| lia].
  destruct H as [-> | H]; [reflexivity | lia].
Qed.

Lemma open_section_end code st d :
  reachable code st -> data_section st = Some d ->
  data_end code (start_pc d) = data_end code (pc st).
Proof.
  intros Hr. revert d. induction Hr as [|st Hr IH Hlt]; intros d Hd;
    [discriminate |].
  destruct (reading_code st || Byte.eqb (opcode (insn_at code (pc st))) JUMPDEST) eqn:E.
  - rewrite (loop_body_code _ _ E) in Hd. discriminate.
  - rewrite (loop_body_data _ _ Hlt E) in *. cbn [data_section pc] in *.
    injection Hd as <-. cbn [start_pc].
    apply orb_false_iff in E. destruct E as [_ Ej]. rewrite insn_at_opcode in Ej.
    rewrite <- (data_end_skip code (pc st) Hlt Ej).
    destruct (data_section st) as [d0|]; [now apply IH | reflexivity].
Qed.

Lemma flushed_section_end code st d :
  reachable code st -> data_section st = Some d ->
  Byte.eqb (nth (pc st) code STOP) JUMPDEST = true \/ List.length code <= pc st ->
  start_pc d + List.length (data d) = data_end code (start_pc d).
Proof.
  intros Hr Hd Hend.
  rewrite (open_section_end code st d Hr Hd).
  rewrite data_end_here by (auto using reachable_pc).
  now destruct (data_line_describes code st d Hr Hd) as [_ H].
Qed.

Lemma output_sections_end code st d :
  reachable code st -> In (DataLine d) (output st) ->
  start_pc d + List.length (data d) = data_end code (start_pc d).
Proof.
  intros Hr. revert d. induction Hr as [|st Hr IH Hlt]; intros d Hin;
    [contradiction |].
  destruct (reading_code st || Byte.eqb (opcode (insn_at code (pc st))) JUMPDEST) eqn:E.
  - rewrite (loop_body_code _ _ E) in Hin. cbn [output] in Hin.
    apply in_app_or in Hin. destruct Hin as [Hin|[Hin|[]]].
    + unfold finish in Hin. destruct (data_section st) as [d0|] eqn:Ed; [| auto].
      apply in_app_or in Hin. destruct Hin as [Hin|[[= <-]|[]]]; [auto |].
      apply (flushed_section_end code st d0 Hr Ed). left.
      destruct (reachable_data code st d0 Hr Ed) as (Hm & _).
      rewrite Hm, insn_at_opcode in E. exact E.
    + destruct (_ && _); discriminate.
  - rewrite (loop_body_data _ _ Hlt E) in Hin. auto.
Qed.

(** X14: a data line takes in as much as it can: its bytes run from its
    offset up to the next byte decoded as JUMPDEST in the scan of the data,
    or up to the end of the buffer; it never begins at a JUMPDEST, and the
    byte after it, when there is one, is a JUMPDEST. *)
Theorem data_line_is_maximal code ls d :
  disassemble_lines code = Some ls -> In (DataLine d) ls ->
  let finish_pc := start_pc d + List.length (data d) in
  finish_pc = data_end code (start_pc d) /\
  nth (start_pc d) code STOP <> JUMPDEST /\
  (finish_pc < List.length code -> nth finish_pc code STOP = JUMPDEST).
Proof.
  intros Hls Hin. cbn zeta.
  destruct (disassemble_lines_final code ls Hls) as (fin & Hr & Hpc & ->).
  pose proof (finish_tiles code fin Hr (reachable_tiles code fin Hr)) as Ht.
  destruct (tiles_In _ _ _ _ _ Ht Hin) as [Hne _].
  assert (Hend : start_pc d + List.length (data d) = data_end code (start_pc d)).
  { unfold finish in Hin. destruct (data_section fin) as [d0|] eqn:Ed.
    - apply in_app_or in Hin. destruct Hin as [Hin|[[= <-]|[]]].
      + eapply output_sections_end; eassumption.
      + apply (flushed_section_end code fin d0 Hr Ed). now right.
    - eapply output_sections_end; eassumption. }
  split; [exact Hend |]. split.
  - intros Hj.
    pose proof (describes_offset code (DataLine d) (tiles_In _ _ _ _ _ Ht Hin)) as Hlt.
    cbn [line_offset] in Hlt.
    rewrite data_end_here in Hend by (rewrite ?Hj; auto with arith).
    destruct (data d); [congruence | simpl in Hend; lia].
  - intros Hlt. rewrite Hend in *.
    apply Byte.byte_dec_bl. now apply data_end_jumpdest.
Qed.

End Disassembler.

(** ** The listings of the sample buffers *)

Ltac reach :=
  repeat first
    [ apply reachable_initial
    | apply reachable_step; [| apply Nat.ltb_lt; reflexivity ] ].

Example sample_code_listing :
  disassemble sample_mnemonic sample_code =
  Some ["0000: PUSH1 0x01"; "0002: STOP"; "0003: DATA 0x605baa";
        "0006: JUMPDEST"; "0007: STOP"].
Proof. reflexivity. Qed.

Example spec_listing_code :
  disassemble sample_mnemonic [x60; x01; x60; x02; x01; x00] =
  Some ["0000: PUSH1 0x01"; "0002: PUSH1 0x02"; "0004: ADD"; "0005: STOP"].
Proof. reflexivity. Qed.

Example spec_listing_data :
  disassemble sample_mnemonic [x00; xde; xad; xbe; xef] =
  Some ["0000: STOP"; "0001: DATA 0xdeadbeef"].
Proof. reflexivity. Qed.

Example spec_listing_jumpdest :
  disassemble sample_mnemonic [x60; x01; x5b; x00] =
  Some ["0000: PUSH1 0x01"; "0002: JUMPDEST"; "0003: STOP"].
Proof. reflexivity. Qed.


Lemma jumpdest_reopens_code_witness :
  let code := sample_code in
  let st := Nat.iter 4 (loop_body sample_mnemonic code) initial in
  let region := {| start_pc := 3; data := [x60; x5b; xaa] |} in
  let st' := loop_body sample_mnemonic code st in
  let insn := insn_at sample_mnemonic code 6 in
  (pc st = 6 /\ reading_code st = false /\ data_section st = Some region /\
   render_line (DataLine region) = "0003: DATA 0x605baa") /\
  opcode insn = JUMPDEST /\
  output st' = output st ++ [DataLine region] ++ [InsnLine 6 insn] /\
  render_line (InsnLine 6 insn) = "0006: JUMPDEST" /\
  reading_code st' = true /\
  data_section st' = None /\
  pc st' = 7 /\
  (forall d, data_section st = Some d ->
             data d = slice code (start_pc d) 6 /\ data d <> [] /\
             render_line (DataLine d)
             = (Fmt.format_x 4 (N.of_nat (start_pc d)) ++ ": DATA 0x"
                  ++ Fmt.bytes_hex (slice code (start_pc d) 6))%string) /\
  (forall ls, disassemble_lines sample_mnemonic code = Some ls ->
              exists rest, ls = output st' ++ rest).
Proof.
  cbn zeta. split; [repeat split |].
  apply (jumpdest_reopens_code sample_mnemonic sample_code
           (Nat.iter 4 (loop_body sample_mnemonic sample_code) initial)).
  - cbn [Nat.iter]. reach.
  - apply Nat.ltb_lt; reflexivity.
  - reflexivity.
  - reflexivity.
Defined.

Lemma truncated_push_line_witness :
  let code := sample_truncated in
  let st := loop_body sample_mnemonic code initial in
  (pc st = 2 /\ reading_code st = true /\
   is_push (insn_at sample_mnemonic code 2) = true /\
   push_width (insn_at sample_mnemonic code 2) = 2) /\
  disassemble sample_mnemonic code =
  Some (map render_line (output st) ++
        [(Fmt.format_x 4 2 ++ ": PUSH" ++ Fmt.dec 2 ++ " 0x"
            ++ Fmt.bytes_hex [xaa] ++ " # truncated")%string]) /\
  4 <= String.length (Fmt.format_x 4 2) /\
  ((2 < 65536)%N -> String.length (Fmt.format_x 4 2) = 4) /\
  disassemble sample_mnemonic [x60] = Some ["0000: PUSH1 0x # truncated"].
Proof.
  cbn zeta. split; [repeat split |].
  apply (truncated_push_line sample_mnemonic sample_truncated
           (loop_body sample_mnemonic sample_truncated initial)).
  - reach.
  - apply Nat.ltb_lt; reflexivity.
  - reflexivity.
  - reflexivity.
  - apply Nat.ltb_lt; reflexivity.
Defined.

Lemma offsets_increasing_witness :
  let code := sample_code in
  let ls := [InsnLine 0 (insn_at sample_mnemonic code 0);
             InsnLine 2 (insn_at sample_mnemonic code 2);
             DataLine {| start_pc := 3; data := [x60; x5b; xaa] |};
             InsnLine 6 (insn_at sample_mnemonic code 6);
             InsnLine 7 (insn_at sample_mnemonic code 7)] in
  disassemble_lines sample_mnemonic code = Some ls /\
  (forall l1 a b l2, ls = l1 ++ a :: b :: l2 -> line_offset a < line_offset b) /\
  tiles sample_mnemonic code 0 ls 8 /\
  (forall l, In l ls ->
     describes sample_mnemonic code l /\
     exists rest,
       render_line l
       = (Fmt.format_x 4 (N.of_nat (line_offset l)) ++ ": " ++ rest)%string /\
       Fmt.hex_value (Fmt.format_x 4 (N.of_nat (line_offset l)))
       = N.of_nat (line_offset l)).
Proof.
  cbn zeta. split; [reflexivity |].
  apply (offsets_increasing sample_mnemonic sample_code). reflexivity.
Defined.

Lemma data_line_payload_witness :
  let code := sample_data in
  let d := {| start_pc := 1; data := [x00; xde; xad] |} in
  let ls := [InsnLine 0 (insn_at sample_mnemonic code 0); DataLine d] in
  disassemble_lines sample_mnemonic code = Some ls /\
  render_line (DataLine d) = "0001: DATA 0x00dead" /\
  exists payload,
    render_line (DataLine d)
    = (Fmt.format_x 4 (N.of_nat (start_pc d)) ++ ": DATA 0x" ++ payload)%string /\
    String.length payload = 2 * List.length (data d) /\
    payload = Fmt.bytes_hex (data d) /\
    Fmt.all_chars Fmt.is_hex_lower payload = true /\
    Fmt.hex_value payload = Fmt.int_from_bytes (data d).
Proof.
  cbn zeta. split; [reflexivity |]. split; [reflexivity |].
  apply (data_line_payload sample_mnemonic sample_data
           [InsnLine 0 (insn_at sample_mnemonic sample_data 0);
            DataLine {| start_pc := 1; data := [x00; xde; xad] |}]).
  - reflexivity.
  - right. left. reflexivity.
Defined.

Lemma data_section_nonempty_witness :
  let code := sample_data in
  let st := Nat.iter 3 (loop_body sample_mnemonic code) initial in
  data_section st = Some {| start_pc := 1; data := [x00; xde] |} /\
  (forall d, data_section st = Some d ->
             data d <> [] /\ reading_code st = false) /\
  (forall d, In (DataLine d) (finish st) -> data d <> []).
Proof.
  cbn zeta. split; [reflexivity |].
  apply (data_section_nonempty sample_mnemonic sample_data
           (Nat.iter 3 (loop_body sample_mnemonic sample_data) initial)).
  cbn [Nat.iter]. reach.
Defined.

Lemma data_line_after_code_witness :
  let code := sample_code in
  let ls := [InsnLine 0 (insn_at sample_mnemonic code 0);
             InsnLine 2 (insn_at sample_mnemonic code 2);
             DataLine {| start_pc := 3; data := [x60; x5b; xaa] |};
             InsnLine 6 (insn_at sample_mnemonic code 6);
             InsnLine 7 (insn_at sample_mnemonic code 7)] in
  disassemble_lines sample_mnemonic code = Some ls /\
  (forall l1 d l2,
      ls = l1 ++ DataLine d :: l2 ->
      exists l0 pc insn,
        l1 = l0 ++ [InsnLine pc insn] /\ in_TERMINATING (opcode insn) = true) /\
  (forall d l2, ls <> DataLine d :: l2) /\
  (forall l1 d d' l2, ls <> l1 ++ DataLine d :: DataLine d' :: l2).
Proof.
  cbn zeta. split; [reflexivity |].
  apply (data_line_after_code sample_mnemonic sample_code). reflexivity.
Defined.

Lemma line_offset_prefix_witness :
  let code := sample_code in
  let line := "0003: DATA 0x605baa" in
  In line ["0000: PUSH1 0x01"; "0002: STOP"; "0003: DATA 0x605baa";
           "0006: JUMPDEST"; "0007: STOP"] /\
  exists ls l off rest,
    disassemble_lines sample_mnemonic code = Some ls /\
    ["0000: PUSH1 0x01"; "0002: STOP"; "0003: DATA 0x605baa";
     "0006: JUMPDEST"; "0007: STOP"] = map render_line ls /\
    (forall l', In l' ls ->
       exists rest',
         render_line l'
         = (Fmt.format_x 4 (N.of_nat (line_offset l')) ++ ": " ++ rest')%string) /\
    In l ls /\ line = render_line l /\ describes sample_mnemonic code l /\
    off = line_offset l /\
    off < List.length code /\
    line = (Fmt.format_x 4 (N.of_nat off) ++ ": " ++ rest)%string /\
    Fmt.all_chars Fmt.is_hex_lower (Fmt.format_x 4 (N.of_nat off)) = true /\
    Fmt.hex_value (Fmt.format_x 4 (N.of_nat off)) = N.of_nat off /\
    4 <= String.length (Fmt.format_x 4 (N.of_nat off)) /\
    ((N.of_nat off < 65536)%N ->
     String.length (Fmt.format_x 4 (N.of_nat off)) = 4 /\
     Fmt.offset_prefix4 line = true) /\
    ((N.of_nat (List.length code) <= 65536)%N -> Fmt.offset_prefix4 line = true).
Proof.
  cbn zeta. split; [right; right; left; reflexivity |].
  apply (line_offset_prefix sample_mnemonic sample_code
           ["0000: PUSH1 0x01"; "0002: STOP"; "0003: DATA 0x605baa";
            "0006: JUMPDEST"; "0007: STOP"]).
  - reflexivity.
  - right. right. left. reflexivity.
Defined.

(** ** Offsets past 0xffff *)

Lemma long_plain_code_plain i :
  i <= N.to_nat 65536 -> plain (nth i long_plain_code STOP) = true.
Proof.
  intros H. unfold long_plain_code. rewrite nth_repeat_lt by lia. reflexivity.
Qed.

(** The listing of 65537 ADD instructions has a line at offset 0x10000:
    its fifth character is a digit of the offset, not the colon. *)
Lemma long_offset_five_digits :
  exists lines,
    disassemble sample_mnemonic long_plain_code = Some lines /\
    In "10000: ADD" lines /\
    Fmt.offset_prefix4 "10000: ADD" = false.
Proof.
  destruct (disassemble_lines_total sample_mnemonic long_plain_code) as [ls Hls].
  exists (map render_line ls). split; [| split].
  - unfold disassemble. now rewrite Hls.
  - assert (Hn : N.to_nat 65536 < List.length long_plain_code)
      by (unfold long_plain_code; rewrite repeat_length; lia).
    pose proof (plain_line sample_mnemonic long_plain_code (N.to_nat 65536) ls
                  Hn long_plain_code_plain Hls) as Hin.
    apply (in_map render_line) in Hin.
    replace "10000: ADD"
      with (render_line (InsnLine (N.to_nat 65536)
                           (insn_at sample_mnemonic long_plain_code (N.to_nat 65536))))
      by (vm_compute; reflexivity).
    exact Hin.
  - reflexivity.
Qed.

Lemma long_truncated_code_plain i :
  i < N.to_nat 65536 -> plain (nth i long_truncated_code STOP) = true.
Proof.
  intros H. unfold long_truncated_code.
  rewrite app_nth1 by (rewrite repeat_length; exact H).
  rewrite nth_repeat_lt by exact H. reflexivity.
Qed.

(** A PUSH1 at offset 0x10000 with no operand: the truncated line is the
    last one, and its offset has five digits. *)
Lemma long_truncated_five_digits :
  exists front,
    disassemble sample_mnemonic long_truncated_code
    = Some (front ++ ["10000: PUSH1 0x # truncated"]) /\
    Fmt.offset_prefix4 "10000: PUSH1 0x # truncated" = false.
Proof.
  set (st := plain_state sample_mnemonic long_truncated_code (N.to_nat 65536)).
  assert (Hlen : List.length long_truncated_code = N.to_nat 65536 + 1).
  { unfold long_truncated_code. now rewrite length_app, repeat_length. }
  assert (Hr : reachable sample_mnemonic long_truncated_code st).
  { apply plain_reachable; [lia | apply long_truncated_code_plain]. }
  assert (Hop : nth (N.to_nat 65536) long_truncated_code STOP = x60).
  { unfold long_truncated_code.
    rewrite app_nth2 by (rewrite repeat_length; lia).
    now rewrite repeat_length, Nat.sub_diag. }
  assert (Hpush : is_push (insn_at sample_mnemonic long_truncated_code (pc st)) = true).
  { unfold is_push. rewrite insn_at_opcode. cbn [pc st plain_state]. now rewrite Hop. }
  assert (Hw : push_width (insn_at sample_mnemonic long_truncated_code (pc st)) = 1).
  { unfold push_width. rewrite insn_at_opcode. cbn [pc st plain_state]. now rewrite Hop. }
  exists (map render_line (output st)). split; [| reflexivity].
  unfold disassemble.
  rewrite (truncated_push_last sample_mnemonic long_truncated_code st Hr).
  - cbn [option_map]. rewrite map_app. cbn [map render_line]. rewrite Hw.
    cbn [pc st plain_state].
    rewrite skipn_all2 by lia.
    do 3 f_equal.
  - cbn [pc st plain_state]. lia.
  - reflexivity.
  - exact Hpush.
  - rewrite Hw. cbn [pc st plain_state]. lia.
Qed.

(** ** The further properties on the sample buffers *)

Lemma numbered_mnemonic_legible : legible numbered_mnemonic.
Proof.
  unfold legible, numbered_mnemonic. split; [| split].
  - intros a b E. apply append_inj_l in E.
    apply (bytes_hex_inj numbered_mnemonic [a] [b]) in E. now injection E.
  - intros op. rewrite without_append.
    rewrite <- (append_empty_r (Fmt.byte_hex op)).
    apply (bytes_hex_no_space [op]).
  - intros op. discriminate.
Qed.

(** Without a name of its own for each opcode the text does not tell the
    buffers apart. *)
Example same_text_two_buffers :
  disassemble sample_mnemonic [x02] = disassemble sample_mnemonic [x0c].
Proof. reflexivity. Qed.

Lemma listing_rebuilds_buffer_witness :
  let code := sample_code in
  let ls := [InsnLine 0 (insn_at numbered_mnemonic code 0);
             InsnLine 2 (insn_at numbered_mnemonic code 2);
             DataLine {| start_pc := 3; data := [x60; x5b; xaa] |};
             InsnLine 6 (insn_at numbered_mnemonic code 6);
             InsnLine 7 (insn_at numbered_mnemonic code 7)] in
  disassemble_lines numbered_mnemonic code = Some ls /\
  List.concat (map line_bytes ls) = code /\
  fold_right (fun l n => line_size l + n) 0 ls = List.length code /\
  (forall code',
      disassemble numbered_mnemonic code' = disassemble numbered_mnemonic code ->
      code' = code).
Proof.
  cbn zeta. split; [reflexivity |].
  destruct (listing_rebuilds_buffer numbered_mnemonic sample_code
              [InsnLine 0 (insn_at numbered_mnemonic sample_code 0);
               InsnLine 2 (insn_at numbered_mnemonic sample_code 2);
               DataLine {| start_pc := 3; data := [x60; x5b; xaa] |};
               InsnLine 6 (insn_at numbered_mnemonic sample_code 6);
               InsnLine 7 (insn_at numbered_mnemonic sample_code 7)]
              eq_refl) as (Hbytes & Hsize & Htext).
  split; [exact Hbytes |]. split; [exact Hsize |].
  exact (Htext numbered_mnemonic_legible).
Defined.

Lemma listing_size_witness :
  let code := [x61; xaa] in
  let ls := [TruncatedLine 0 2 [xaa]] in
  disassemble_lines sample_mnemonic code = Some ls /\
  List.length ls <= List.length code /\
  (ls = [] <-> code = []) /\
  (code <> [] ->
   exists rest,
     ls = (if is_push (insn_at sample_mnemonic code 0)
              && (List.length code <? 1 + push_width (insn_at sample_mnemonic code 0))
           then TruncatedLine 0 (push_width (insn_at sample_mnemonic code 0))
                  (skipn 1 code)
           else InsnLine 0 (insn_at sample_mnemonic code 0)) :: rest).
Proof.
  cbn zeta. split; [reflexivity |].
  apply (listing_size sample_mnemonic [x61; xaa]). reflexivity.
Defined.

Lemma output_is_final_witness :
  let code := sample_code in
  let st := Nat.iter 4 (loop_body sample_mnemonic code) initial in
  let ls := [InsnLine 0 (insn_at sample_mnemonic code 0);
             InsnLine 2 (insn_at sample_mnemonic code 2);
             DataLine {| start_pc := 3; data := [x60; x5b; xaa] |};
             InsnLine 6 (insn_at sample_mnemonic code 6);
             InsnLine 7 (insn_at sample_mnemonic code 7)] in
  (pc st = 6 /\ List.length (output st) = 2) /\
  (exists rest, ls = output st ++ rest) /\
  List.length (output st) <= pc st.
Proof.
  cbn zeta. split; [split; reflexivity |].
  apply (output_is_final sample_mnemonic sample_code
           (Nat.iter 4 (loop_body sample_mnemonic sample_code) initial)).
  - cbn [Nat.iter]. reach.
  - reflexivity.
Defined.

Lemma jumpdest_always_listed_witness :
  let code := sample_code in
  let ls := [InsnLine 0 (insn_at sample_mnemonic code 0);
             InsnLine 2 (insn_at sample_mnemonic code 2);
             DataLine {| start_pc := 3; data := [x60; x5b; xaa] |};
             InsnLine 6 (insn_at sample_mnemonic code 6);
             InsnLine 7 (insn_at sample_mnemonic code 7)] in
  (boundary sample_mnemonic code 6 /\ 6 < List.length code /\
   nth 6 code STOP = JUMPDEST) <->
  (exists insn, In (InsnLine 6 insn) ls /\ opcode insn = JUMPDEST).
Proof.
  cbn zeta.
  apply (jumpdest_always_listed sample_mnemonic sample_code). reflexivity.
Defined.

Lemma no_terminator_no_data_witness :
  let code := [x60; x5b; x01; x5b] in
  let ls := [InsnLine 0 (insn_at sample_mnemonic code 0);
             InsnLine 2 (insn_at sample_mnemonic code 2);
             InsnLine 3 (insn_at sample_mnemonic code 3)] in
  disassemble_lines sample_mnemonic code = Some ls /\
  forall l, In l ls -> forall d, l <> DataLine d.
Proof.
  cbn zeta. split; [reflexivity |].
  apply (no_terminator_no_data sample_mnemonic [x60; x5b; x01; x5b]).
  - intros b [<-|[<-|[<-|[<-|[]]]]]; reflexivity.
  - reflexivity.
Defined.

Lemma disassemble_app_witness :
  let a := [x60; x01; x01] in
  let b := [x00; xaa; x5b] in
  let la := [InsnLine 0 (insn_at sample_mnemonic a 0);
             InsnLine 2 (insn_at sample_mnemonic a 2)] in
  let lb := [InsnLine 0 (insn_at sample_mnemonic b 0);
             DataLine {| start_pc := 1; data := [xaa] |};
             InsnLine 2 (insn_at sample_mnemonic b 2)] in
  disassemble_lines sample_mnemonic (a ++ b)
  = Some (la ++ map (shift_line (List.length a)) lb).
Proof.
  cbn zeta.
  apply (disassemble_app sample_mnemonic [x60; x01; x01] [x00; xaa; x5b]).
  - reflexivity.
  - right.
    exists [InsnLine 0 (insn_at sample_mnemonic [x60; x01; x01] 0)], 2,
      (insn_at sample_mnemonic [x60; x01; x01] 2).
    split; reflexivity.
  - reflexivity.
Defined.

Lemma data_line_is_maximal_witness :
  let code := sample_code in
  let d := {| start_pc := 3; data := [x60; x5b; xaa] |} in
  6 = data_end sample_mnemonic code 3 /\
  nth 3 code STOP <> JUMPDEST /\
  (6 < List.length code -> nth 6 code STOP = JUMPDEST).
Proof.
  cbn zeta.
  apply (data_line_is_maximal sample_mnemonic sample_code
           [InsnLine 0 (insn_at sample_mnemonic sample_code 0);
            InsnLine 2 (insn_at sample_mnemonic sample_code 2);
            DataLine {| start_pc := 3; data := [x60; x5b; xaa] |};
            InsnLine 6 (insn_at sample_mnemonic sample_code 6);
            InsnLine 7 (insn_at sample_mnemonic sample_code 7)]
           {| start_pc := 3; data := [x60; x5b; xaa] |}).
  - reflexivity.
  - right. right. left. reflexivity.
Defined.
